(** * BufferedFilesystem (relay-compiler/runner/BufferedFilesystem.js)

    A shallow embedding of the [BufferedFilesystem] class: a filesystem
    wrapper that keeps file writes and deletions in an in-memory [Map]
    until [commit()] applies them to the real filesystem.

    The class has two fields ([buffer], [committed]) and talks to Node's
    [fs] module.  Methods are embedded as computations of a small
    state-and-exception monad over a [World] holding the object, the real
    disk and a trace of the physical effects performed so far. *)

From stdpp Require Import base option list strings gmap.

Open Scope string_scope.
Open Scope list_scope.

#[local] Set Warnings "-clear-no-such-hyp".

(** ** Errors and results *)

Inductive ErrCode := ENOENT | EISDIR | EEXIST.

(** What a JavaScript [throw] (or a rejected promise) carries here:
    - [InvariantViolation msg]: thrown by [invariant(false, msg)];
    - [FsError code path]: thrown by a function of Node's [fs];
    - [PlainError msg]: [throw new Error(msg)];
    - [HookRejected]: the promise of [sourceControl.addRemove] rejected. *)
Inductive Error :=
  | InvariantViolation (msg : string)
  | FsError (code : ErrCode) (path : string)
  | PlainError (msg : string)
  | HookRejected.

Inductive Result (A : Type) :=
  | Ok (a : A)
  | Throw (e : Error).
Arguments Ok {A} a.
Arguments Throw {A} e.

#[global] Instance ErrCode_eq_dec : EqDecision ErrCode.
Proof. solve_decision. Defined.
#[global] Instance Error_eq_dec : EqDecision Error.
Proof. solve_decision. Defined.
#[global] Instance Result_eq_dec `{EqDecision A} : EqDecision (Result A).
Proof. solve_decision. Defined.

(** ** The real filesystem

    Node's [fs] module is external to the repository.  It is modelled as a
    finite map from paths to nodes; a path is a key of a flat name space
    (parent directories, permissions and encodings are not modelled: file
    contents are the strings that [readFileSync(path, 'utf8')] returns).
    The errors of the model are errors of Node: a path that exists makes
    [mkdirSync] throw EEXIST, a path that does not exist makes
    [readFileSync], [unlinkSync] and [statSync] throw ENOENT, a directory
    makes [readFileSync], [writeFileSync] and [unlinkSync] throw.  The
    converse is not claimed: where the model lets [writeFileSync] or
    [mkdirSync] go through, Node may still throw (a missing parent
    directory, a permission).  The statements below that speak of a write
    or a [mkdirSync] having happened are therefore made under the
    hypothesis that the call, or the loop of [commit], returned. *)

Inductive Node :=
  | File (data : string)
  | Dir.

#[global] Instance Node_eq_dec : EqDecision Node.
Proof. solve_decision. Defined.

Abbreviation Disk := (gmap string Node).

(** Physical effects and hook invocations, in the order they happen. *)
Inductive Event :=
  | FsUnlink (path : string)
  | FsWrite (path : string) (data : string)
  | FsMkdir (path : string)
  | HookAddRemove (added removed : list string).

#[global] Instance Event_eq_dec : EqDecision Event.
Proof. solve_decision. Defined.

(** ** The JavaScript [Map] held in [buffer]

    A [Map<string, ?string>] iterates in insertion order and [set] on a key
    already present replaces the value in place.  The value [null] (a
    pending deletion) is [None]; [get] of an absent key is [undefined],
    the outer [None] of [Map_get]. *)

Definition JsMap := list (string * option string).

Fixpoint Map_get (m : JsMap) (key : string) : option (option string) :=
  match m with
  | [] => None
  | (k, v) :: rest => if decide (k = key) then Some v else Map_get rest key
  end.

Definition Map_has (m : JsMap) (key : string) : bool :=
  bool_decide (is_Some (Map_get m key)).

Fixpoint Map_set (m : JsMap) (key : string) (value : option string) : JsMap :=
  match m with
  | [] => [(key, value)]
  | (k, v) :: rest =>
      if decide (k = key) then (k, value) :: rest
      else (k, v) :: Map_set rest key value
  end.

Definition Map_size (m : JsMap) : nat := length m.

Definition Map_keys (m : JsMap) : list string := m.*1.

(** [Boolean(x)] for [x : ?string]: [undefined], [null] and the empty
    string are falsy. *)
Definition Boolean (x : option (option string)) : bool :=
  match x with
  | Some (Some s) => negb (bool_decide (s = ""))
  | _ => false
  end.

(** ** The object, the world and the monad *)

Record BufferedFilesystem := mkBufferedFilesystem {
  buffer : JsMap;
  committed : bool;
}.

(** [new BufferedFilesystem()] *)
Definition new_BufferedFilesystem : BufferedFilesystem :=
  {| buffer := []; committed := false |}.

Record World := mkWorld {
  this : BufferedFilesystem;
  disk : Disk;
  trace : list Event;
}.

Definition M (A : Type) : Type := World → Result A * World.

#[global] Instance M_ret : MRet M := λ A a w, (Ok a, w).
#[global] Instance M_bind : MBind M := λ A B f m w,
  match m w with
  | (Ok a, w') => f a w'
  | (Throw e, w') => (Throw e, w')
  end.

Definition M_map {A B} (f : A → B) (m : M A) : M B := a ← m; mret (f a).
Infix "<$$>" := M_map (at level 61, left associativity).

Definition throw {A} (e : Error) : M A := λ w, (Throw e, w).
Definition get_this : M BufferedFilesystem := λ w, (Ok (this w), w).
Definition get_disk : M Disk := λ w, (Ok (disk w), w).
Definition put_this (t : BufferedFilesystem) : M unit :=
  λ w, (Ok (), {| this := t; disk := disk w; trace := trace w |}).
Definition put_disk (d : Disk) : M unit :=
  λ w, (Ok (), {| this := this w; disk := d; trace := trace w |}).
Definition emit (e : Event) : M unit :=
  λ w, (Ok (), {| this := this w; disk := disk w; trace := trace w ++ [e] |}).

(** [invariant(condition, message)] of the [invariant] package. *)
Definition invariant (condition : bool) (message : string) : M unit :=
  if condition then mret () else throw (InvariantViolation message).

(** ** Node's [fs] functions on the model *)

Module fs.

Definition existsSync (path : string) : M bool :=
  d ← get_disk; mret (bool_decide (is_Some (d !! path))).

Definition readFileSync (path : string) (encoding : string) : M string :=
  d ← get_disk;
  match d !! path with
  | Some (File data) => mret data
  | Some Dir => throw (FsError EISDIR path)
  | None => throw (FsError ENOENT path)
  end.

Definition writeFileSync (path data : string) (encoding : string) : M unit :=
  d ← get_disk;
  match d !! path with
  | Some Dir => throw (FsError EISDIR path)
  | _ => put_disk (<[path := File data]> d);; emit (FsWrite path data)
  end.

Definition unlinkSync (path : string) : M unit :=
  d ← get_disk;
  match d !! path with
  | Some (File _) => put_disk (delete path d);; emit (FsUnlink path)
  | Some Dir => throw (FsError EISDIR path)
  | None => throw (FsError ENOENT path)
  end.

Definition mkdirSync (path : string) : M unit :=
  d ← get_disk;
  match d !! path with
  | Some _ => throw (FsError EEXIST path)
  | None => put_disk (<[path := Dir]> d);; emit (FsMkdir path)
  end.

(** [statSync(path)] seen through its [isDirectory()] method. *)
Definition statSync (path : string) : M bool :=
  d ← get_disk;
  match d !! path with
  | Some Dir => mret true
  | Some (File _) => mret false
  | None => throw (FsError ENOENT path)
  end.

End fs.

(** ** The source-control hook *)

(** Modelled from the spec: the [SourceControl] type is imported from
    'relay-compiler' and declared outside BufferedFilesystem.js.  The spec
    gives the
    hook interface as [addRemove(addedPaths, removedPaths) -> outcome], an
    external collaborator.  The hook is given by the outcome of the promise
    [addRemove] returns ([true]: resolved, [false]: rejected) for the two
    lists it receives; it does not write the files of the model. *)
Record SourceControl := mkSourceControl {
  addRemove_outcome : list string → list string → bool;
}.

Definition addRemove (sc : SourceControl) (added removed : list string) : M unit :=
  emit (HookAddRemove added removed);;
  if addRemove_outcome sc added removed then mret () else throw HookRejected.

(** ** The methods of [BufferedFilesystem] *)

Definition no_ops_msg : string :=
  "BufferedFilesystem: no operations allowed after commit().".
Definition read_deleted_msg : string :=
  "BufferedFilesystem: trying to read deleted file.".
Definition readdir_msg : string :=
  "BufferedFilesystem: readdirSync is not implemented.".

Definition _assertNotComitted : M unit :=
  t ← get_this;
  invariant (negb (committed t)) no_ops_msg.

(** The body of [for (const [path, data] of this.buffer)] in [commit];
    [removed] and [added] are the two local arrays. *)
Definition commit_body (path : string) (data : option string)
    (removed added : list string) : M (list string * list string) :=
  match data with
  | None =>
      let removed := removed ++ [path] in
      fs.unlinkSync path;;
      mret (removed, added)
  | Some data =>
      fileExisits ← fs.existsSync path;
      currentData ← (if fileExisits : bool
                     then s ← fs.readFileSync path "utf8"; mret (Some s)
                     else mret None);
      if decide (currentData ≠ Some data) then
        let added := added ++ [path] in
        fs.writeFileSync path data "utf8";;
        mret (removed, added)
      else mret (removed, added)
  end.

Fixpoint commit_loop (entries : JsMap) (removed added : list string)
    : M (list string * list string) :=
  match entries with
  | [] => mret (removed, added)
  | (path, data) :: rest =>
      '(removed, added) ← commit_body path data removed added;
      commit_loop rest removed added
  end.

Definition commit (sourceControl : option SourceControl) : M unit :=
  _assertNotComitted;;
  t ← get_this;
  put_this {| buffer := buffer t; committed := true |};;
  '(removed, added) ← commit_loop (buffer t) [] [];
  match sourceControl with
  | Some sc => addRemove sc added removed
  | None => mret ()
  end.

(** [this.buffer.size > 0] *)
Definition hasChanges : M bool :=
  _assertNotComitted;;
  t ← get_this;
  mret (bool_decide (0 < Map_size (buffer t))).

(** The loop of [getAddedRemovedFiles] over the entries of the buffer. *)
Fixpoint getAddedRemovedFiles_loop (entries : JsMap) (added removed : list string)
    : M (list string * list string) :=
  match entries with
  | [] => mret (added, removed)
  | (path, data) :: rest =>
      match data with
      | None => getAddedRemovedFiles_loop rest added (removed ++ [path])
      | Some _ =>
          e ← fs.existsSync path;
          if negb e then getAddedRemovedFiles_loop rest (added ++ [path]) removed
          else getAddedRemovedFiles_loop rest added removed
      end
  end.

(** Returns the object [{added, removed}] as the pair [(added, removed)]. *)
Definition getAddedRemovedFiles : M (list string * list string) :=
  _assertNotComitted;;
  t ← get_this;
  getAddedRemovedFiles_loop (buffer t) [] [].

Definition existsSync (path : string) : M bool :=
  _assertNotComitted;;
  t ← get_this;
  if Map_has (buffer t) path
  then mret (Boolean (Map_get (buffer t) path))
  else fs.existsSync path.

Definition mkdirSync (path : string) : M unit :=
  _assertNotComitted;;
  fs.mkdirSync path.

Definition readdirSync (path : string) : M (list string) :=
  _assertNotComitted;;
  throw (PlainError readdir_msg).

(** [invariant(data != null, ...); return data;] is the [match]: the
    invariant fails for [null] (and [undefined]), otherwise [data] is the
    string returned. *)
Definition readFileSync (path : string) (encoding : string) : M string :=
  _assertNotComitted;;
  t ← get_this;
  if Map_has (buffer t) path then
    let data := Map_get (buffer t) path in
    match data with
    | Some (Some data) => mret data
    | _ => throw (InvariantViolation read_deleted_msg)
    end
  else fs.readFileSync path encoding.

Definition statSync (path : string) : M bool :=
  _assertNotComitted;;
  fs.statSync path.

Definition unlinkSync (path : string) : M unit :=
  _assertNotComitted;;
  t ← get_this;
  put_this {| buffer := Map_set (buffer t) path None; committed := committed t |}.

Definition writeFileSync (filename data : string) (encoding : string) : M unit :=
  _assertNotComitted;;
  t ← get_this;
  put_this {| buffer := Map_set (buffer t) filename (Some data);
              committed := committed t |}.

(** Returns [{changed, removed}] as the pair [(changed, removed)]. *)
Definition changedFilesToJSON : M (list (string * string) * list string) :=
  _assertNotComitted;;
  t ← get_this;
  mret (omap (λ '(path, data), pair path <$> data) (buffer t),
        omap (λ '(path, data),
                match data with None => Some path | Some _ => None end)
             (buffer t)).

(** ** Calls and call sequences

    A caller drives the object through a sequence of method calls; a call
    that throws leaves the object as the throw left it and the caller may
    go on.  [Call] names a method with its arguments, [Value] is what a
    call returns. *)

Inductive Call :=
  | CallCommit (sourceControl : option SourceControl)
  | CallHasChanges
  | CallGetAddedRemovedFiles
  | CallExistsSync (path : string)
  | CallMkdirSync (path : string)
  | CallReaddirSync (path : string)
  | CallReadFileSync (path : string) (encoding : string)
  | CallStatSync (path : string)
  | CallUnlinkSync (path : string)
  | CallWriteFileSync (filename data : string) (encoding : string)
  | CallChangedFilesToJSON.

Inductive Value :=
  | VUndefined
  | VBool (b : bool)
  | VString (s : string)
  | VStat (isDirectory : bool)
  | VAddedRemoved (added removed : list string)
  | VStrings (l : list string)
  | VChanged (changed : list (string * string)) (removed : list string).

Definition call (c : Call) : M Value :=
  match c with
  | CallCommit sc => commit sc;; mret VUndefined
  | CallHasChanges => VBool <$$> hasChanges
  | CallGetAddedRemovedFiles =>
      '(added, removed) ← getAddedRemovedFiles; mret (VAddedRemoved added removed)
  | CallExistsSync path => VBool <$$> existsSync path
  | CallMkdirSync path => mkdirSync path;; mret VUndefined
  | CallReaddirSync path => VStrings <$$> readdirSync path
  | CallReadFileSync path encoding => VString <$$> readFileSync path encoding
  | CallStatSync path => VStat <$$> statSync path
  | CallUnlinkSync path => unlinkSync path;; mret VUndefined
  | CallWriteFileSync filename data encoding =>
      writeFileSync filename data encoding;; mret VUndefined
  | CallChangedFilesToJSON =>
      '(changed, removed) ← changedFilesToJSON; mret (VChanged changed removed)
  end.

(** Runs the calls in order and returns the world reached. *)
Definition run (calls : list Call) (w : World) : World :=
  foldl (λ w c, (call c w).2) w calls.

(** The results of the calls, in order. *)
Fixpoint results (calls : list Call) (w : World) : list (Result Value) :=
  match calls with
  | [] => []
  | c :: rest => (call c w).1 :: results rest (call c w).2
  end.

(** A fresh object over a disk [d], nothing traced yet. *)
Definition fresh (d : Disk) : World :=
  {| this := new_BufferedFilesystem; disk := d; trace := [] |}.

(** ** What [commit] does to one entry, as pure functions of the disk *)

(** The entry can be applied: a deletion needs a file to delete, a write
    must not hit a directory. *)
Definition entry_ok (d : Disk) (path : string) (data : option string) : bool :=
  match data, d !! path with
  | None, Some (File _) => true
  | None, _ => false
  | Some _, Some Dir => false
  | Some _, _ => true
  end.

(** The error [fs] throws when the entry cannot be applied. *)
Definition entry_error (d : Disk) (path : string) : Error :=
  match d !! path with
  | None => FsError ENOENT path
  | Some _ => FsError EISDIR path
  end.

(** The staged content differs from what the disk holds at [path]. *)
Definition differs (d : Disk) (path data : string) : bool :=
  bool_decide (d !! path ≠ Some (File data)).

Definition entry_disk (d : Disk) (path : string) (data : option string) : Disk :=
  match data with
  | None => delete path d
  | Some data => <[path := File data]> d
  end.

Definition entry_events (d : Disk) (path : string) (data : option string)
    : list Event :=
  match data with
  | None => [FsUnlink path]
  | Some data => if differs d path data then [FsWrite path data] else []
  end.

Definition entry_removed (path : string) (data : option string) : list string :=
  match data with None => [path] | Some _ => [] end.

Definition entry_added (d : Disk) (path : string) (data : option string)
    : list string :=
  match data with
  | None => []
  | Some data => if differs d path data then [path] else []
  end.

Definition removed_of (entries : JsMap) : list string :=
  entries ≫= λ '(path, data), entry_removed path data.

Definition written_of (d : Disk) (entries : JsMap) : list string :=
  entries ≫= λ '(path, data), entry_added d path data.

Definition events_of (d : Disk) (entries : JsMap) : list Event :=
  entries ≫= λ '(path, data), entry_events d path data.

Definition disk_after (d : Disk) (entries : JsMap) : Disk :=
  foldl (λ d '(path, data), entry_disk d path data) d entries.

(** Staged writes whose path does not exist on disk: what
    [getAddedRemovedFiles] calls added. *)
Definition new_paths_of (d : Disk) (entries : JsMap) : list string :=
  entries ≫= λ '(path, data),
    match data with
    | Some _ => if bool_decide (is_Some (d !! path)) then [] else [path]
    | None => []
    end.

(** The entries the loop of [commit] gets through: the longest prefix whose
    entries can all be applied. *)
Fixpoint processed (d : Disk) (entries : JsMap) : JsMap :=
  match entries with
  | [] => []
  | (path, data) :: rest =>
      if entry_ok d path data then (path, data) :: processed d rest else []
  end.

(** The path at which the loop of [commit] throws, if it does. *)
Fixpoint first_failure (d : Disk) (entries : JsMap) : option string :=
  match entries with
  | [] => None
  | (path, data) :: rest =>
      if entry_ok d path data then first_failure d rest else Some path
  end.

(** The world [commit] runs its loop in: the object is marked committed. *)
Definition mark_committed (w : World) : World :=
  {| this := {| buffer := buffer (this w); committed := true |};
     disk := disk w; trace := trace w |}.

(** The world after the loop of [commit]. *)
Definition after_loop (w : World) : World :=
  let b := buffer (this w) in
  let d := disk w in
  {| this := {| buffer := b; committed := true |};
     disk := disk_after d (processed d b);
     trace := trace w ++ events_of d (processed d b) |}.

(** The events a computation adds to the trace when run from [w]. *)
Definition new_events {A} (m : M A) (w : World) : list Event :=
  drop (length (trace w)) (trace (m w).2).

(** The [(added, removed)] arguments of the hook invocations among events. *)
Definition hook_calls (evs : list Event) : list (list string * list string) :=
  omap (λ e, match e with
             | HookAddRemove added removed => Some (added, removed)
             | _ => None
             end) evs.

(** The physical effects among events. *)
Definition is_fs_event (e : Event) : bool :=
  match e with HookAddRemove _ _ => false | _ => true end.

Definition fs_events (evs : list Event) : list Event :=
  filter (λ e, is_fs_event e) evs.

(** The path a physical effect touches. *)
Definition touches (path : string) (e : Event) : bool :=
  match e with
  | FsUnlink p | FsWrite p _ | FsMkdir p => bool_decide (p = path)
  | HookAddRemove _ _ => false
  end.

(** A [Map] has one entry per key.  [Map_set] keeps it so, and it holds of
    the buffer in every world reached from a fresh object ([run_wf],
    [fresh_wf]). *)
Definition Map_wf (m : JsMap) : Prop := NoDup (Map_keys m).

(** Calls other than [commit]. *)
Definition is_staging (c : Call) : bool :=
  match c with CallCommit _ => false | _ => true end.

(** Calls that stage a write or a deletion. *)
Definition is_mutation (c : Call) : bool :=
  match c with
  | CallWriteFileSync _ _ _ | CallUnlinkSync _ => true
  | _ => false
  end.

(** The last operation staged on [path] by [calls], starting from what was
    staged before ([init]): [Some (Some data)] a write, [Some None] a
    deletion, [None] nothing. *)
Definition last_staged (path : string) (calls : list Call)
    (init : option (option string)) : option (option string) :=
  foldl (λ acc c,
           match c with
           | CallWriteFileSync filename data _ =>
               if decide (filename = path) then Some (Some data) else acc
           | CallUnlinkSync p =>
               if decide (p = path) then Some None else acc
           | _ => acc
           end) init calls.

(** What a staging call does to the buffer and to the disk. *)
Definition staged_by (c : Call) (b : JsMap) : JsMap :=
  match c with
  | CallWriteFileSync filename data _ => Map_set b filename (Some data)
  | CallUnlinkSync path => Map_set b path None
  | _ => b
  end.

Definition disk_by (c : Call) (d : Disk) : Disk :=
  match c with
  | CallMkdirSync path =>
      match d !! path with None => <[path := Dir]> d | Some _ => d end
  | _ => d
  end.

Definition events_by (c : Call) (d : Disk) : list Event :=
  match c with
  | CallMkdirSync path =>
      match d !! path with None => [FsMkdir path] | Some _ => [] end
  | _ => []
  end.

(** The hook invocation [commit] makes when its loop completes. *)
Definition hook_event (sc : option SourceControl) (d : Disk) (b : JsMap)
    : list Event :=
  match first_failure d b, sc with
  | None, Some _ => [HookAddRemove (written_of d b) (removed_of b)]
  | _, _ => []
  end.

(** A hook that always succeeds. *)
Definition accepting_hook : SourceControl :=
  {| addRemove_outcome := λ _ _, true |}.

(** [added] holds exactly the paths with a staged write in [b] that do not
    exist on the disk [d]. *)
Definition added_is_new_paths (b : JsMap) (d : Disk) (added : list string) : Prop :=
  ∀ path, path ∈ added ↔
    (∃ data, Map_get b path = Some (Some data)) ∧ d !! path = None.

(** The real filesystem is shared: [with_disk d w] is [w] after other
    processes have brought the disk to [d]. *)
Definition with_disk (d : Disk) (w : World) : World :=
  {| this := this w; disk := d; trace := trace w |}.

(** A not-found outcome: what [fs] throws for a path that does not exist. *)
Definition is_not_found (e : Error) : bool :=
  match e with
  | FsError ENOENT _ => true
  | _ => false
  end.

(** Calls that only ask: everything but [commit], [mkdirSync],
    [unlinkSync] and [writeFileSync]. *)
Definition is_query (c : Call) : bool :=
  match c with
  | CallCommit _ | CallMkdirSync _ | CallUnlinkSync _
  | CallWriteFileSync _ _ _ => false
  | _ => true
  end.

(** The call stages something for [path], or makes the directory [path]. *)
Definition concerns (path : string) (c : Call) : bool :=
  match c with
  | CallWriteFileSync p _ _ | CallUnlinkSync p | CallMkdirSync p =>
      bool_decide (p = path)
  | _ => false
  end.

(** The path a staging call stages. *)
Definition staged_path (c : Call) : option string :=
  match c with
  | CallWriteFileSync p _ _ | CallUnlinkSync p => Some p
  | _ => None
  end.

(** The paths staged by [calls], each once, in the order in which they are
    first staged, after the paths [init] staged before. *)
Definition first_staged (calls : list Call) (init : list string) : list string :=
  foldl (λ acc c,
           match staged_path c with
           | Some p => if bool_decide (p ∈ acc) then acc else acc ++ [p]
           | None => acc
           end) init calls.

(** The paths of the physical effects among the events, in order. *)
Definition touched_paths (evs : list Event) : list string :=
  omap (λ e, match e with
             | FsUnlink p | FsWrite p _ | FsMkdir p => Some p
             | HookAddRemove _ _ => None
             end) evs.

(** The paths written, and the paths unlinked, by the events, in order. *)
Definition written_paths (evs : list Event) : list string :=
  omap (λ e, match e with FsWrite p _ => Some p | _ => None end) evs.

Definition unlinked_paths (evs : list Event) : list string :=
  omap (λ e, match e with FsUnlink p => Some p | _ => None end) evs.

(** A new object holding the buffer [b], over the disk and the trace of
    [w]. *)
Definition restaged (b : JsMap) (w : World) : World :=
  {| this := {| buffer := b; committed := false |};
     disk := disk w; trace := trace w |}.

(** ** Lemmas on the [Map] *)

Section JsMap_facts.
Implicit Types (m : JsMap) (k : string) (v : option string).

Lemma Map_get_set_eq m k v : Map_get (Map_set m k v) k = Some v.
Proof.
  induction m as [|[k' v'] m IH]; simpl.
  - by rewrite decide_True.
  - destruct (decide (k' = k)) as [->|Hne]; simpl.
    + by rewrite decide_True.
    + by rewrite decide_False.
Qed.

Lemma Map_get_set_ne m k k' v :
  k ≠ k' → Map_get (Map_set m k v) k' = Map_get m k'.
Proof.
  intros Hne. induction m as [|[k0 v0] m IH]; simpl.
  - by rewrite decide_False.
  - destruct (decide (k0 = k)) as [->|Hne0]; simpl.
    + by rewrite !decide_False.
    + by rewrite IH.
Qed.

Lemma Map_keys_set m k v k' :
  k' ∈ Map_keys (Map_set m k v) ↔ k' = k ∨ k' ∈ Map_keys m.
Proof.
  unfold Map_keys. induction m as [|[k0 v0] m IH]; simpl.
  - set_solver.
  - destruct (decide (k0 = k)) as [->|Hne0]; simpl; set_solver.
Qed.

Lemma Map_set_NoDup m k v :
  NoDup (Map_keys m) → NoDup (Map_keys (Map_set m k v)).
Proof.
  unfold Map_keys. induction m as [|[k0 v0] m IH]; simpl; intros Hnd.
  - apply NoDup_singleton.
  - apply NoDup_cons in Hnd as [Hnotin Hnd].
    destruct (decide (k0 = k)) as [->|Hne0]; simpl.
    + by apply NoDup_cons.
    + apply NoDup_cons. split; [|by apply IH].
      intros Hin. apply (Map_keys_set m k v k0) in Hin as [?|?]; done.
Qed.

Lemma Map_get_None m k : Map_get m k = None ↔ k ∉ Map_keys m.
Proof.
  unfold Map_keys. induction m as [|[k0 v0] m IH]; simpl.
  - set_solver.
  - destruct (decide (k0 = k)) as [->|Hne0]; set_solver.
Qed.

Lemma Map_get_elem m k v :
  NoDup (Map_keys m) → Map_get m k = Some v ↔ (k, v) ∈ m.
Proof.
  unfold Map_keys. induction m as [|[k0 v0] m IH]; simpl; intros Hnd.
  - set_solver.
  - apply NoDup_cons in Hnd as [Hnotin Hnd].
    destruct (decide (k0 = k)) as [->|Hne0].
    + split; [intros [= ->]; left|].
      intros [[= ->]|Hin]%elem_of_cons; [done|].
      exfalso. apply Hnotin. apply list_elem_of_fmap. by exists (k, v).
    + rewrite IH by done. set_solver.
Qed.

Lemma Map_has_true m k : Map_has m k = true ↔ k ∈ Map_keys m.
Proof.
  unfold Map_has. rewrite bool_decide_eq_true.
  rewrite <- not_eq_None_Some, Map_get_None.
  split; [apply dec_stable | auto].
Qed.

Lemma Map_size_set_pos m k v : 0 < Map_size (Map_set m k v).
Proof.
  unfold Map_size. destruct m as [|[k0 v0] m]; simpl; [lia|].
  destruct (decide (k0 = k)); simpl; lia.
Qed.

End JsMap_facts.

(** ** The monad on a given world *)

Lemma bind_Ok {A B} (m : M A) (f : A → M B) w a w' :
  m w = (Ok a, w') → (m ≫= f) w = f a w'.
Proof. intros H. unfold mbind, M_bind. by rewrite H. Qed.

Lemma bind_Throw {A B} (m : M A) (f : A → M B) w e w' :
  m w = (Throw e, w') → (m ≫= f) w = (Throw e, w').
Proof. intros H. unfold mbind, M_bind. by rewrite H. Qed.

Lemma World_eta w : {| this := this w; disk := disk w; trace := trace w |} = w.
Proof. by destruct w. Qed.

Ltac unfold_M :=
  unfold M_map, mbind, M_bind, mret, M_ret, throw, get_this, get_disk,
    put_this, put_disk, emit, invariant in *.

Ltac unfold_fs :=
  unfold fs.existsSync, fs.readFileSync, fs.writeFileSync, fs.unlinkSync,
    fs.mkdirSync, fs.statSync in *.

(** ** The guard *)

Lemma assert_open w :
  committed (this w) = false → _assertNotComitted w = (Ok (), w).
Proof. intros H. unfold _assertNotComitted. unfold_M. by rewrite H. Qed.

Lemma assert_committed w :
  committed (this w) = true →
  _assertNotComitted w = (Throw (InvariantViolation no_ops_msg), w).
Proof. intros H. unfold _assertNotComitted. unfold_M. by rewrite H. Qed.

(** ** One iteration of the loop of [commit] *)

Lemma commit_body_ok path data removed added w :
  entry_ok (disk w) path data = true →
  commit_body path data removed added w =
    (Ok (removed ++ entry_removed path data,
         added ++ entry_added (disk w) path data),
     {| this := this w;
        disk := entry_disk (disk w) path data;
        trace := trace w ++ entry_events (disk w) path data |}).
Proof.
  unfold entry_ok, commit_body, entry_added, entry_events, differs.
  unfold_fs; unfold_M. destruct w as [t d tr]; simpl.
  destruct data as [data|], (d !! path) as [[cur|]|] eqn:Hd;
    simpl; rewrite ?Hd; simpl; rewrite ?Hd; simpl; try done; intros _.
  - destruct (decide (cur = data)) as [->|Hne].
    + rewrite decide_False by (intros H; by apply H).
      rewrite bool_decide_eq_false_2 by (intros H; by apply H).
      rewrite insert_id by done. by rewrite !app_nil_r.
    + rewrite decide_True by congruence.
      rewrite bool_decide_eq_true_2 by congruence.
      simpl. rewrite Hd. by rewrite app_nil_r.
  - by rewrite app_nil_r.
  - by rewrite app_nil_r.
Qed.

Lemma commit_body_fail path data removed added w :
  entry_ok (disk w) path data = false →
  commit_body path data removed added w = (Throw (entry_error (disk w) path), w).
Proof.
  unfold entry_ok, commit_body, entry_error.
  unfold_fs; unfold_M. destruct w as [t d tr]; simpl.
  by destruct data as [data|], (d !! path) as [[cur|]|] eqn:Hd;
    simpl; rewrite ?Hd; simpl; rewrite ?Hd.
Qed.

(** Applying an entry touches the disk at its own path only. *)
Lemma entry_disk_other d path data q :
  q ≠ path → entry_disk d path data !! q = d !! q.
Proof.
  intros Hne. destruct data; simpl.
  - by rewrite lookup_insert_ne.
  - by rewrite lookup_delete_ne.
Qed.

Lemma entry_disk_self d path data :
  entry_disk d path data !! path = File <$> data.
Proof.
  destruct data; simpl.
  - by rewrite lookup_insert_eq.
  - by rewrite lookup_delete_eq.
Qed.

(** The pure functions read the disk at the paths of the entries only. *)
Section agree.
Context (d d' : Disk) (entries : JsMap).
Hypothesis agree : ∀ q, q ∈ Map_keys entries → d !! q = d' !! q.

Lemma agree_bind {A} (f g : string → option string → list A) :
  (∀ p v, d !! p = d' !! p → f p v = g p v) →
  (entries ≫= λ '(p, v), f p v) = (entries ≫= λ '(p, v), g p v).
Proof using agree.
  intros Hfg. clear -agree Hfg. unfold Map_keys in agree.
  induction entries as [|[p v] l IH]; [done|].
  rewrite !bind_cons. f_equal.
  - apply Hfg, agree. set_solver.
  - apply IH. intros q Hq. apply agree. set_solver.
Qed.

Lemma written_of_agree : written_of d entries = written_of d' entries.
Proof using agree.
  apply agree_bind. intros p v H.
  unfold entry_added, differs. by rewrite H.
Qed.

Lemma events_of_agree : events_of d entries = events_of d' entries.
Proof using agree.
  apply agree_bind. intros p v H.
  unfold entry_events, differs. by rewrite H.
Qed.

Lemma entry_ok_agree p v : (p, v) ∈ entries → entry_ok d p v = entry_ok d' p v.
Proof using agree.
  intros Hin. unfold entry_ok. rewrite agree; [done|].
  unfold Map_keys. apply list_elem_of_fmap. by exists (p, v).
Qed.
End agree.

Lemma processed_agree d d' entries :
  (∀ q, q ∈ Map_keys entries → d !! q = d' !! q) →
  processed d entries = processed d' entries.
Proof.
  unfold Map_keys. induction entries as [|[p v] l IH]; simpl; intros Hag; [done|].
  rewrite (entry_ok_agree d d' [(p, v)] ltac:(set_solver) p v) by set_solver.
  rewrite IH by set_solver. done.
Qed.

Lemma first_failure_agree d d' entries :
  (∀ q, q ∈ Map_keys entries → d !! q = d' !! q) →
  first_failure d entries = first_failure d' entries.
Proof.
  unfold Map_keys. induction entries as [|[p v] l IH]; simpl; intros Hag; [done|].
  rewrite (entry_ok_agree d d' [(p, v)] ltac:(set_solver) p v) by set_solver.
  rewrite IH by set_solver. done.
Qed.

Lemma processed_keys d entries q :
  q ∈ Map_keys (processed d entries) → q ∈ Map_keys entries.
Proof.
  unfold Map_keys. induction entries as [|[p v] l IH]; simpl; [done|].
  destruct (entry_ok d p v); simpl; set_solver.
Qed.

Lemma first_failure_keys d entries q :
  first_failure d entries = Some q → q ∈ Map_keys entries.
Proof.
  unfold Map_keys. induction entries as [|[p v] l IH]; simpl; [done|].
  destruct (entry_ok d p v); simpl; [set_solver|].
  intros [= ->]. set_solver.
Qed.

Lemma first_failure_None d entries :
  first_failure d entries = None → processed d entries = entries.
Proof.
  induction entries as [|[p v] l IH]; simpl; [done|].
  destruct (entry_ok d p v); [|done]. intros H. by rewrite IH.
Qed.

(** ** The loop of [commit], in closed form

    With one entry per path no iteration sees the effect of another, so
    the whole loop is a function of the disk it starts on. *)
Lemma commit_loop_spec entries : ∀ removed added w,
  NoDup (Map_keys entries) →
  commit_loop entries removed added w =
    (match first_failure (disk w) entries with
     | None => Ok (removed ++ removed_of entries,
                   added ++ written_of (disk w) entries)
     | Some path => Throw (entry_error (disk w) path)
     end,
     {| this := this w;
        disk := disk_after (disk w) (processed (disk w) entries);
        trace := trace w ++ events_of (disk w) (processed (disk w) entries) |}).
Proof.
  induction entries as [|[p v] l IH]; intros removed added w Hnd.
  - simpl. unfold removed_of, written_of, events_of, disk_after. simpl.
    by rewrite !app_nil_r, World_eta.
  - unfold Map_keys in Hnd. simpl in Hnd.
    apply NoDup_cons in Hnd as [Hp Hnd]. simpl.
    destruct (entry_ok (disk w) p v) eqn:Hok.
    + rewrite (bind_Ok _ _ _ _ _ (commit_body_ok p v removed added w Hok)).
      rewrite IH by done. simpl.
      assert (Hag : ∀ q, q ∈ Map_keys l →
                entry_disk (disk w) p v !! q = disk w !! q).
      { intros q Hq. apply entry_disk_other. intros ->. done. }
      rewrite (first_failure_agree _ _ _ Hag), (processed_agree _ _ _ Hag).
      rewrite (written_of_agree _ _ _ Hag).
      rewrite (events_of_agree (entry_disk (disk w) p v) (disk w)
                 (processed (disk w) l)).
      2:{ intros q Hq. apply Hag. by eapply processed_keys. }
      f_equal.
      * destruct (first_failure (disk w) l) as [q|] eqn:Hff.
        -- unfold entry_error. rewrite Hag; [done|].
           by eapply first_failure_keys.
        -- unfold removed_of, written_of. simpl. by rewrite <- !app_assoc.
      * unfold events_of, disk_after. simpl. by rewrite <- !app_assoc.
    + rewrite (bind_Throw _ _ _ _ _ (commit_body_fail p v removed added w Hok)).
      unfold events_of, disk_after. simpl. by rewrite app_nil_r, World_eta.
Qed.

(** ** [commit], in closed form *)

Lemma commit_committed sc w :
  committed (this w) = true →
  commit sc w = (Throw (InvariantViolation no_ops_msg), w).
Proof.
  intros H. unfold commit. by rewrite (bind_Throw _ _ _ _ _ (assert_committed w H)).
Qed.

Lemma commit_open sc w :
  committed (this w) = false →
  commit sc w =
    match commit_loop (buffer (this w)) [] [] (mark_committed w) with
    | (Ok (removed, added), w') =>
        match sc with
        | Some sc => addRemove sc added removed w'
        | None => (Ok (), w')
        end
    | (Throw e, w') => (Throw e, w')
    end.
Proof.
  intros H. unfold commit. rewrite (bind_Ok _ _ _ _ _ (assert_open w H)).
  unfold mark_committed. unfold_M. simpl.
  destruct (commit_loop _ _ _ _) as [[[removed added]|e] w']; [|done].
  by destruct sc.
Qed.

Lemma addRemove_spec sc added removed w :
  addRemove sc added removed w =
    (if addRemove_outcome sc added removed then Ok () else Throw HookRejected,
     {| this := this w; disk := disk w;
        trace := trace w ++ [HookAddRemove added removed] |}).
Proof.
  unfold addRemove. unfold_M. simpl.
  by destruct (addRemove_outcome sc added removed).
Qed.

Lemma commit_spec sc w :
  committed (this w) = false →
  Map_wf (buffer (this w)) →
  commit sc w =
    let b := buffer (this w) in
    let d := disk w in
    match first_failure d b with
    | Some path => (Throw (entry_error d path), after_loop w)
    | None =>
        match sc with
        | None => (Ok (), after_loop w)
        | Some sc =>
            (if addRemove_outcome sc (written_of d b) (removed_of b)
             then Ok () else Throw HookRejected,
             {| this := this (after_loop w);
                disk := disk (after_loop w);
                trace := trace (after_loop w) ++
                         [HookAddRemove (written_of d b) (removed_of b)] |})
        end
    end.
Proof.
  intros Hopen Hwf. rewrite commit_open by done.
  rewrite commit_loop_spec by done. simpl.
  destruct (first_failure (disk w) (buffer (this w))); [done|].
  destruct sc as [sc|]; [|done]. by rewrite addRemove_spec.
Qed.

(** Whatever it returns, [commit] leaves the object committed. *)
Lemma commit_marks sc w : committed (this (commit sc w).2) = true.
Proof.
  destruct (committed (this w)) eqn:Hc.
  - by rewrite commit_committed.
  - rewrite commit_open by done.
    assert (H : ∀ entries removed added w0,
               this (commit_loop entries removed added w0).2 = this w0).
    { clear. induction entries as [|[p v] l IH]; intros removed added w0; [done|].
      simpl. destruct (entry_ok (disk w0) p v) eqn:Hok.
      - rewrite (bind_Ok _ _ _ _ _ (commit_body_ok p v removed added w0 Hok)).
        by rewrite IH.
      - by rewrite (bind_Throw _ _ _ _ _ (commit_body_fail p v removed added w0 Hok)). }
    specialize (H (buffer (this w)) [] [] (mark_committed w)).
    destruct (commit_loop _ _ _ _) as [[[removed added]|e] w']; simpl in *.
    + destruct sc as [sc|]; [rewrite addRemove_spec|]; simpl; by rewrite H.
    + by rewrite H.
Qed.

(** ** Calls on a committed object *)

Lemma call_committed c w :
  committed (this w) = true →
  call c w = (Throw (InvariantViolation no_ops_msg), w).
Proof.
  intros H.
  destruct c; unfold call, commit, hasChanges, getAddedRemovedFiles, existsSync,
    mkdirSync, readdirSync, readFileSync, statSync, unlinkSync, writeFileSync,
    changedFilesToJSON, M_map; unfold mbind, M_bind at 1;
    try unfold mbind, M_bind at 1; by rewrite (assert_committed w H).
Qed.

Lemma run_committed calls w :
  committed (this w) = true →
  run calls w = w ∧
  Forall (λ r, r = Throw (InvariantViolation no_ops_msg)) (results calls w).
Proof.
  intros H. unfold run.
  induction calls as [|c calls [IH1 IH2]]; simpl; [done|].
  rewrite (call_committed c w H). simpl. split; [done|]. by constructor.
Qed.

(** ** Calls on an open object *)

Lemma getAddedRemovedFiles_loop_spec entries : ∀ added removed w,
  getAddedRemovedFiles_loop entries added removed w =
    (Ok (added ++ new_paths_of (disk w) entries, removed ++ removed_of entries), w).
Proof.
  unfold new_paths_of, removed_of.
  induction entries as [|[p [data|]] l IH]; intros added removed w; simpl.
  - by rewrite !app_nil_r.
  - unfold fs.existsSync. unfold_M. simpl.
    destruct (bool_decide (is_Some (disk w !! p))); simpl; rewrite IH.
    + done.
    + by rewrite <- app_assoc.
  - rewrite IH. by rewrite <- app_assoc.
Qed.

Lemma getAddedRemovedFiles_spec w :
  committed (this w) = false →
  getAddedRemovedFiles w =
    (Ok (new_paths_of (disk w) (buffer (this w)), removed_of (buffer (this w))), w).
Proof.
  intros H. unfold getAddedRemovedFiles.
  rewrite (bind_Ok _ _ _ _ _ (assert_open w H)). unfold_M.
  by rewrite getAddedRemovedFiles_loop_spec.
Qed.

Lemma call_staging_world c w :
  is_staging c = true →
  committed (this w) = false →
  (call c w).2 =
    {| this := {| buffer := staged_by c (buffer (this w)); committed := false |};
       disk := disk_by c (disk w);
       trace := trace w ++ events_by c (disk w) |}.
Proof.
  intros Hc H. destruct w as [[b cm] d tr]. simpl in H. subst cm.
  destruct c; try done; unfold call, M_map.
  - (* hasChanges *)
    unfold hasChanges, _assertNotComitted. unfold_M. simpl. by rewrite app_nil_r.
  - (* getAddedRemovedFiles *)
    erewrite bind_Ok by (by apply getAddedRemovedFiles_spec).
    simpl. by rewrite app_nil_r.
  - (* existsSync *)
    unfold existsSync, _assertNotComitted, fs.existsSync. unfold_M. simpl.
    rewrite app_nil_r. by destruct (Map_has b path).
  - (* mkdirSync *)
    unfold mkdirSync, _assertNotComitted, fs.mkdirSync. unfold_M. simpl.
    destruct (d !! path) eqn:Hd; simpl; rewrite ?Hd; simpl; by rewrite ?app_nil_r.
  - (* readdirSync *)
    unfold readdirSync, _assertNotComitted. unfold_M. simpl. by rewrite app_nil_r.
  - (* readFileSync *)
    unfold readFileSync, _assertNotComitted, fs.readFileSync. unfold_M. simpl.
    rewrite app_nil_r. destruct (Map_has b path).
    + destruct (Map_get b path) as [[?|]|]; reflexivity.
    + cbn. destruct (d !! path) as [[?|]|]; reflexivity.
  - (* statSync *)
    unfold statSync, _assertNotComitted, fs.statSync. unfold_M. simpl.
    rewrite app_nil_r. destruct (d !! path) as [[?|]|]; reflexivity.
  - (* unlinkSync *)
    unfold unlinkSync, _assertNotComitted. unfold_M. simpl. by rewrite app_nil_r.
  - (* writeFileSync *)
    unfold writeFileSync, _assertNotComitted. unfold_M. simpl. by rewrite app_nil_r.
  - (* changedFilesToJSON *)
    unfold changedFilesToJSON, _assertNotComitted. unfold_M. simpl.
    by rewrite app_nil_r.
Qed.

Lemma staged_by_wf c b : Map_wf b → Map_wf (staged_by c b).
Proof. intros H. destruct c; simpl; try done; by apply Map_set_NoDup. Qed.

Lemma run_staging_open calls : ∀ w,
  forallb is_staging calls = true →
  committed (this w) = false →
  committed (this (run calls w)) = false.
Proof.
  unfold run. induction calls as [|c calls IH]; intros w Hs H; simpl; [done|].
  simpl in Hs. apply andb_prop in Hs as [Hc Hs].
  apply IH; [done|]. by rewrite call_staging_world.
Qed.

Lemma call_wf c w :
  Map_wf (buffer (this w)) → Map_wf (buffer (this (call c w).2)).
Proof.
  intros Hwf. destruct (committed (this w)) eqn:Hcm.
  - by rewrite call_committed.
  - destruct (is_staging c) eqn:Hc.
    + rewrite call_staging_world by done. simpl. by apply staged_by_wf.
    + destruct c; try done. unfold call.
      assert (buffer (this (commit sourceControl w).2) = buffer (this w)) as Hb.
      { rewrite commit_spec by done. simpl.
        destruct (first_failure _ _); [done|]. by destruct sourceControl. }
      unfold mbind, M_bind. destruct (commit sourceControl w) as [[[]|e] w'];
        simpl in *; by rewrite Hb.
Qed.

(** Every world reached from a fresh object has one entry per path. *)
Lemma run_wf calls : ∀ w,
  Map_wf (buffer (this w)) → Map_wf (buffer (this (run calls w))).
Proof.
  unfold run. induction calls as [|c calls IH]; intros w Hwf; simpl; [done|].
  by apply IH, call_wf.
Qed.

Lemma fresh_wf d : Map_wf (buffer (this (fresh d))).
Proof. apply NoDup_nil_2. Qed.

(** * The claims *)

(** ** C2: nothing is allowed after [commit()] *)

(** C2. On the object left by a call of [commit()] (whatever that call
    returned), every method named by the interface ([readFileSync],
    [writeFileSync], [unlinkSync], [existsSync], [statSync], [mkdirSync],
    [hasChanges], [getAddedRemovedFiles]) throws the invariant violation
    "no operations allowed after commit()" and changes nothing; so does a
    second [commit()], and so does every call of every later sequence of
    calls. *)
Theorem no_operation_after_commit (sc : option SourceControl) (w : World) :
  let w' := (commit sc w).2 in
  let violation {A} : Result A * World :=
    (Throw (InvariantViolation no_ops_msg), w') in
  (∀ path encoding, readFileSync path encoding w' = violation) ∧
  (∀ filename data encoding, writeFileSync filename data encoding w' = violation) ∧
  (∀ path, unlinkSync path w' = violation) ∧
  (∀ path, existsSync path w' = violation) ∧
  (∀ path, statSync path w' = violation) ∧
  (∀ path, mkdirSync path w' = violation) ∧
  hasChanges w' = violation ∧
  getAddedRemovedFiles w' = violation ∧
  (∀ sc', commit sc' w' = violation) ∧
  (∀ calls,
     Forall (λ r, r = Throw (InvariantViolation no_ops_msg)) (results calls w') ∧
     run calls w' = w').
Proof.
  intros w' violation. subst violation.
  assert (Hc : committed (this w') = true) by apply commit_marks.
  assert (Hg := assert_committed w' Hc).
  repeat split; intros;
    try (unfold readFileSync, writeFileSync, unlinkSync, existsSync, statSync,
           mkdirSync, hasChanges, getAddedRemovedFiles;
         by rewrite (bind_Throw _ _ _ _ _ Hg)).
  - by apply commit_committed.
  - by apply run_committed.
  - by apply run_committed.
Qed.

(** ** C8: [hasChanges] before commit *)

Lemma run_staging_buffer_pos calls : ∀ w,
  forallb is_staging calls = true →
  committed (this w) = false →
  0 < Map_size (buffer (this w)) →
  0 < Map_size (buffer (this (run calls w))).
Proof.
  unfold run. induction calls as [|c calls IH]; intros w Hs H Hpos; simpl; [done|].
  simpl in Hs. apply andb_prop in Hs as [Hc Hs].
  apply IH; [done|by rewrite call_staging_world|].
  rewrite call_staging_world by done. simpl.
  destruct c; simpl; try done; apply Map_size_set_pos.
Qed.

Lemma run_staging_buffer calls : ∀ w,
  forallb is_staging calls = true →
  committed (this w) = false →
  buffer (this w) = [] →
  0 < Map_size (buffer (this (run calls w))) ↔ existsb is_mutation calls = true.
Proof.
  induction calls as [|c calls IH]; intros w Hs H Hb.
  - simpl. rewrite Hb. simpl. split; [lia|done].
  - simpl in Hs. apply andb_prop in Hs as [Hc Hs].
    change (run (c :: calls) w) with (run calls (call c w).2).
    simpl. destruct (is_mutation c) eqn:Hm; simpl.
    + split; [done|intros _].
      apply run_staging_buffer_pos; [done|by rewrite call_staging_world|].
      rewrite call_staging_world by done. simpl.
      destruct c; try done; apply Map_size_set_pos.
    + apply IH; [done|by rewrite call_staging_world|].
      rewrite call_staging_world by done. simpl.
      destruct c; try done.
Qed.

(** C8. Starting from a fresh object over any disk, after any sequence of
    calls other than [commit()], [hasChanges()] returns [true] exactly
    when the sequence contains a [writeFileSync] or an [unlinkSync]; the
    disk plays no part, so this holds also when every staged content equals
    the content on disk. *)
Theorem hasChanges_iff_staged (d : Disk) (calls : list Call) :
  forallb is_staging calls = true →
  hasChanges (run calls (fresh d)) =
    (Ok (existsb is_mutation calls), run calls (fresh d)).
Proof.
  intros Hs.
  assert (Hopen : committed (this (run calls (fresh d))) = false)
    by by apply run_staging_open.
  unfold hasChanges. rewrite (bind_Ok _ _ _ _ _ (assert_open _ Hopen)).
  unfold_M. f_equal. f_equal.
  pose proof (run_staging_buffer calls (fresh d) Hs eq_refl eq_refl) as Hiff.
  destruct (existsb is_mutation calls).
  - apply bool_decide_eq_true_2. by apply Hiff.
  - apply bool_decide_eq_false_2. intros Hpos. by apply Hiff in Hpos.
Qed.

Lemma hasChanges_iff_staged_witness :
  hasChanges (run [CallWriteFileSync "b.out" "Y" "utf8"]
                  (fresh {["b.out" := File "Y"]})) =
    (Ok true, run [CallWriteFileSync "b.out" "Y" "utf8"]
                  (fresh {["b.out" := File "Y"]})).
Proof.
  apply (hasChanges_iff_staged {["b.out" := File "Y"]}
           [CallWriteFileSync "b.out" "Y" "utf8"]).
  reflexivity.
Defined.

(** ** C5 and C9: reads and existence checks while staging *)

Lemma Map_has_get m k : Map_has m k = bool_decide (Map_get m k ≠ None).
Proof.
  unfold Map_has. apply bool_decide_ext. by rewrite not_eq_None_Some.
Qed.

Lemma readFileSync_spec path encoding w :
  committed (this w) = false →
  readFileSync path encoding w =
    match Map_get (buffer (this w)) path with
    | Some (Some data) => (Ok data, w)
    | Some None => (Throw (InvariantViolation read_deleted_msg), w)
    | None => fs.readFileSync path encoding w
    end.
Proof.
  intros H. unfold readFileSync. rewrite (bind_Ok _ _ _ _ _ (assert_open w H)).
  unfold_M. rewrite Map_has_get.
  by destruct (Map_get (buffer (this w)) path) as [[?|]|].
Qed.

Lemma existsSync_spec path w :
  committed (this w) = false →
  existsSync path w =
    match Map_get (buffer (this w)) path with
    | Some data => (Ok (Boolean (Some data)), w)
    | None => fs.existsSync path w
    end.
Proof.
  intros H. unfold existsSync. rewrite (bind_Ok _ _ _ _ _ (assert_open w H)).
  unfold_M. rewrite Map_has_get.
  by destruct (Map_get (buffer (this w)) path) as [[?|]|].
Qed.

Lemma writeFileSync_spec filename data encoding w :
  committed (this w) = false →
  writeFileSync filename data encoding w =
    (Ok (), {| this := {| buffer := Map_set (buffer (this w)) filename (Some data);
                          committed := false |};
               disk := disk w; trace := trace w |}).
Proof.
  intros H. unfold writeFileSync. rewrite (bind_Ok _ _ _ _ _ (assert_open w H)).
  unfold_M. by rewrite H.
Qed.

Lemma unlinkSync_spec path w :
  committed (this w) = false →
  unlinkSync path w =
    (Ok (), {| this := {| buffer := Map_set (buffer (this w)) path None;
                          committed := false |};
               disk := disk w; trace := trace w |}).
Proof.
  intros H. unfold unlinkSync. rewrite (bind_Ok _ _ _ _ _ (assert_open w H)).
  unfold_M. by rewrite H.
Qed.

(** C9. After [writeFileSync(path, "")] on an open object, [existsSync(path)]
    returns [false] although the write is pending and [readFileSync(path)]
    returns the empty string; this holds whatever the disk has at [path]
    and for every open object whose buffer maps [path] to the empty
    string. *)
Theorem existsSync_empty_write (w : World) (path encoding encoding' : string) :
  committed (this w) = false →
  (Map_get (buffer (this w)) path = Some (Some "") →
     existsSync path w = (Ok false, w) ∧
     readFileSync path encoding w = (Ok "", w)) ∧
  let w' := (writeFileSync path "" encoding w).2 in
  Map_has (buffer (this w')) path = true ∧
  existsSync path w' = (Ok false, w') ∧
  readFileSync path encoding' w' = (Ok "", w').
Proof.
  intros H.
  assert (Hgen : ∀ w0, committed (this w0) = false →
            Map_get (buffer (this w0)) path = Some (Some "") →
            existsSync path w0 = (Ok false, w0) ∧
            ∀ enc, readFileSync path enc w0 = (Ok "", w0)).
  { intros w0 H0 Hget. split; [|intros enc].
    - rewrite existsSync_spec by done. by rewrite Hget.
    - rewrite readFileSync_spec by done. by rewrite Hget. }
  split.
  - intros Hget. destruct (Hgen w H Hget) as [? ?]. auto.
  - rewrite writeFileSync_spec by done. simpl.
    set (w' := mkWorld _ _ _).
    assert (Hget : Map_get (buffer (this w')) path = Some (Some ""))
      by apply Map_get_set_eq.
    destruct (Hgen w' eq_refl Hget) as [? ?].
    split; [|auto]. rewrite Map_has_get. simpl in Hget. simpl. by rewrite Hget.
Qed.

Lemma existsSync_empty_write_witness :
  let w := fresh {["e.out" := File "old"]} in
  let w' := (writeFileSync "e.out" "" "utf8" w).2 in
  Map_has (buffer (this w')) "e.out" = true ∧
  existsSync "e.out" w' = (Ok false, w') ∧
  readFileSync "e.out" "utf8" w' = (Ok "", w').
Proof.
  exact (proj2 (existsSync_empty_write (fresh {["e.out" := File "old"]})
                  "e.out" "utf8" "utf8" eq_refl)).
Defined.

(** C5, as stated, fails: [c.out] exists on disk and is staged as deleted;
    [readFileSync] does not return the on-disk content, but what it throws
    is the invariant violation "trying to read deleted file", not a
    not-found error. *)
Lemma read_staged_deletion_counterexample :
  let w := run [CallUnlinkSync "c.out"] (fresh {["c.out" := File "Z"]}) in
  readFileSync "c.out" "utf8" w =
    (Throw (InvariantViolation read_deleted_msg), w) ∧
  ¬ ∃ e, (readFileSync "c.out" "utf8" w).1 = Throw e ∧ is_not_found e = true.
Proof.
  simpl. split; [reflexivity|].
  intros (e & He & Hnf). vm_compute in He. injection He as <-. discriminate.
Qed.

(** C5, amended. On an open object: [readFileSync] returns the staged
    content of a path with a pending write and reads the real filesystem
    for a path that is not staged; for a path staged as deleted it throws
    the invariant violation "trying to read deleted file" (never the
    on-disk content); [existsSync] returns [false] for a path staged as
    deleted and asks the real filesystem for a path that is not staged. *)
Theorem staged_reads (w : World) (path encoding : string) :
  committed (this w) = false →
  (∀ data, Map_get (buffer (this w)) path = Some (Some data) →
     readFileSync path encoding w = (Ok data, w)) ∧
  (Map_get (buffer (this w)) path = None →
     readFileSync path encoding w = fs.readFileSync path encoding w) ∧
  (Map_get (buffer (this w)) path = Some None →
     readFileSync path encoding w =
       (Throw (InvariantViolation read_deleted_msg), w) ∧
     existsSync path w = (Ok false, w)) ∧
  (Map_get (buffer (this w)) path = None →
     existsSync path w = fs.existsSync path w) ∧
  (∀ data enc,
     let w' := (writeFileSync path data enc w).2 in
     readFileSync path encoding w' = (Ok data, w')) ∧
  (let w' := (unlinkSync path w).2 in
   readFileSync path encoding w' =
     (Throw (InvariantViolation read_deleted_msg), w') ∧
   existsSync path w' = (Ok false, w')).
Proof.
  intros H. split; [|split; [|split; [|split; [|split]]]].
  - intros data Hget. rewrite readFileSync_spec by done. by rewrite Hget.
  - intros Hget. rewrite readFileSync_spec by done. by rewrite Hget.
  - intros Hget. rewrite readFileSync_spec, existsSync_spec by done.
    by rewrite Hget.
  - intros Hget. rewrite existsSync_spec by done. by rewrite Hget.
  - intros data enc. rewrite writeFileSync_spec by done. simpl.
    rewrite readFileSync_spec by done. simpl. by rewrite Map_get_set_eq.
  - rewrite unlinkSync_spec by done. simpl.
    rewrite readFileSync_spec, existsSync_spec by done. simpl.
    by rewrite Map_get_set_eq.
Qed.

Lemma staged_reads_witness :
  let w := fresh {["c.out" := File "Z"]} in
  let w' := (unlinkSync "c.out" w).2 in
  readFileSync "c.out" "utf8" w' =
    (Throw (InvariantViolation read_deleted_msg), w') ∧
  existsSync "c.out" w' = (Ok false, w').
Proof.
  exact (proj2 (proj2 (proj2 (proj2 (proj2
    (staged_reads (fresh {["c.out" := File "Z"]}) "c.out" "utf8" eq_refl)))))).
Defined.

(** ** Membership in the lists [commit] and [getAddedRemovedFiles] build *)

Section lists.
Context (d : Disk) (b : JsMap).
Hypothesis wf : Map_wf b.

Lemma elem_of_removed_of p :
  p ∈ removed_of b ↔ Map_get b p = Some None.
Proof using wf.
  unfold removed_of. rewrite list_elem_of_bind, Map_get_elem by done.
  split.
  - intros ([q [data|]] & Hin & Hq); simpl in Hin; [set_solver|].
    apply list_elem_of_singleton in Hin as ->. done.
  - intros Hin. exists (p, None). split; [set_solver|done].
Qed.

Lemma elem_of_written_of p :
  p ∈ written_of d b ↔
  ∃ data, Map_get b p = Some (Some data) ∧ d !! p ≠ Some (File data).
Proof using wf.
  unfold written_of. rewrite list_elem_of_bind. split.
  - intros ([q [data|]] & Hin & Hq); simpl in Hin; [|set_solver].
    unfold differs in Hin. case_bool_decide; [|set_solver].
    apply list_elem_of_singleton in Hin as ->.
    exists data. by rewrite Map_get_elem.
  - intros (data & Hget & Hne). exists (p, Some data).
    rewrite <- Map_get_elem by done. split; [|done]. simpl.
    unfold differs. rewrite bool_decide_eq_true_2 by done. set_solver.
Qed.

Lemma elem_of_new_paths_of p :
  p ∈ new_paths_of d b ↔
  (∃ data, Map_get b p = Some (Some data)) ∧ d !! p = None.
Proof using wf.
  unfold new_paths_of. rewrite list_elem_of_bind. split.
  - intros ([q [data|]] & Hin & Hq); simpl in Hin; [|set_solver].
    case_bool_decide as Hd; [set_solver|].
    apply list_elem_of_singleton in Hin as ->.
    rewrite <- not_eq_None_Some in Hd. apply dec_stable in Hd.
    split; [|done]. exists data. by rewrite Map_get_elem.
  - intros [(data & Hget) Hd]. exists (p, Some data).
    rewrite <- Map_get_elem by done. split; [|done]. simpl.
    rewrite bool_decide_eq_false_2; [set_solver|].
    rewrite Hd. by intros [? ?].
Qed.
End lists.

(** ** What [commit] adds to the trace and leaves on disk *)

Lemma commit_new_events sc w :
  committed (this w) = false →
  Map_wf (buffer (this w)) →
  new_events (commit sc) w =
    events_of (disk w) (processed (disk w) (buffer (this w))) ++
    hook_event sc (disk w) (buffer (this w)).
Proof.
  intros Hopen Hwf. unfold new_events, hook_event.
  rewrite commit_spec by done. simpl.
  destruct (first_failure _ _); simpl.
  - by rewrite drop_app_length, app_nil_r.
  - destruct sc; simpl.
    + by rewrite <- app_assoc, drop_app_length.
    + by rewrite drop_app_length, app_nil_r.
Qed.

Lemma commit_disk sc w :
  committed (this w) = false →
  Map_wf (buffer (this w)) →
  disk (commit sc w).2 =
    disk_after (disk w) (processed (disk w) (buffer (this w))).
Proof.
  intros Hopen Hwf. rewrite commit_spec by done. simpl.
  destruct (first_failure _ _); [done|]. by destruct sc.
Qed.

Lemma hook_calls_app evs evs' :
  hook_calls (evs ++ evs') = hook_calls evs ++ hook_calls evs'.
Proof. apply omap_app. Qed.

Lemma hook_calls_events_of d entries : hook_calls (events_of d entries) = [].
Proof.
  unfold hook_calls, events_of.
  induction entries as [|[p v] l IH]; [done|].
  rewrite bind_cons, omap_app, IH, app_nil_r.
  destruct v as [data|]; simpl; [|done].
  unfold differs. by case_bool_decide.
Qed.

(** The disk after a run of entries with distinct paths, path by path. *)
Lemma disk_after_lookup entries : ∀ d p,
  Map_wf entries →
  disk_after d entries !! p =
    match Map_get entries p with
    | Some data => File <$> data
    | None => d !! p
    end.
Proof.
  unfold disk_after, Map_wf, Map_keys.
  induction entries as [|[q v] l IH]; intros d p Hnd; simpl; [done|].
  apply NoDup_cons in Hnd as [Hq Hnd]. rewrite IH by done.
  destruct (decide (q = p)) as [->|Hne].
  - assert (Map_get l p = None) as -> by by apply Map_get_None.
    apply entry_disk_self.
  - destruct (Map_get l p); [done|]. by apply entry_disk_other.
Qed.

(** ** C1: the added list *)

(** C1. The code at the input where the claim fails: [a.out] exists on
    disk with content "OLD" and a write of "X" is staged.  [existsSync]
    of the real filesystem is [true] for the path and
    [getAddedRemovedFiles()] reports [added = []], as the claim says; but
    [commit()], run on the same state, completes, rewrites the file and
    passes [added = ["a.out"]] to the hook: its [added] is not the list of
    the staged writes to paths that did not exist. *)
Theorem commit_added_existing_path :
  let d : Disk := {["a.out" := File "OLD"]} in
  let w := run [CallWriteFileSync "a.out" "X" "utf8"] (fresh d) in
  fs.existsSync "a.out" w = (Ok true, w) ∧
  getAddedRemovedFiles w = (Ok ([], []), w) ∧
  added_is_new_paths (buffer (this w)) d [] ∧
  (commit (Some accepting_hook) w).1 = Ok () ∧
  hook_calls (new_events (commit (Some accepting_hook)) w) = [(["a.out"], [])] ∧
  disk (commit (Some accepting_hook) w).2 !! "a.out" = Some (File "X") ∧
  ¬ added_is_new_paths (buffer (this w)) d ["a.out"].
Proof.
  simpl.
  assert (Hwf : Map_wf [("a.out", Some "X")]) by apply NoDup_singleton.
  split; [by vm_compute|]. split; [by vm_compute|]. split.
  { intros path.
    rewrite <- (elem_of_new_paths_of {["a.out" := File "OLD"]} _ Hwf).
    by vm_compute. }
  split; [by vm_compute|]. split; [by vm_compute|]. split; [by vm_compute|].
  intros Hclaim. destruct (Hclaim "a.out") as [Hin _].
  destruct Hin as [_ Hnone]; [set_solver|]. by vm_compute in Hnone.
Qed.

(** ** The physical effects of [commit] on one path *)

Lemma processed_wf d entries : Map_wf entries → Map_wf (processed d entries).
Proof.
  unfold Map_wf, Map_keys. induction entries as [|[p v] l IH]; simpl; [done|].
  intros [Hp Hnd]%NoDup_cons. destruct (entry_ok d p v); simpl; [|constructor].
  apply NoDup_cons. split; [|by apply IH].
  intros Hin. by apply (processed_keys d l p) in Hin.
Qed.

Lemma processed_get d entries path v :
  Map_get (processed d entries) path = Some v → Map_get entries path = Some v.
Proof.
  induction entries as [|[p v'] l IH]; simpl; [done|].
  destruct (entry_ok d p v'); simpl; [|done].
  destruct (decide (p = path)); [done|apply IH].
Qed.

Lemma processed_get_ok d entries path v :
  Map_get (processed d entries) path = Some v → entry_ok d path v = true.
Proof.
  induction entries as [|[p v'] l IH]; simpl; [done|].
  destruct (entry_ok d p v') eqn:Hok; simpl; [|done].
  destruct (decide (p = path)) as [->|]; [by intros [= <-]|apply IH].
Qed.

Lemma filter_touches_entry_events d path p v :
  filter (λ e, touches path e) (entry_events d p v) =
    if decide (p = path) then entry_events d p v else [].
Proof.
  assert (Hone : ∀ e, touches path e = bool_decide (p = path) →
            filter (λ e, touches path e) [e] = if decide (p = path) then [e] else []).
  { intros e He. destruct (decide (p = path)) as [->|Hne].
    - rewrite filter_cons_True; [done|].
      rewrite He. by rewrite bool_decide_eq_true_2.
    - rewrite filter_cons_False; [done|].
      rewrite He, bool_decide_eq_false_2 by done. simpl. tauto. }
  destruct v as [data|]; simpl.
  - destruct (differs d p data); [by apply Hone|].
    by destruct (decide (p = path)).
  - by apply Hone.
Qed.

Lemma filter_touches_events_of d entries path :
  filter (λ e, touches path e) (events_of d entries) =
    (entries ≫= λ '(p, v), if decide (p = path) then entry_events d p v else []).
Proof.
  unfold events_of. induction entries as [|[p v] l IH]; [done|].
  rewrite !bind_cons, filter_app, IH. f_equal.
  apply filter_touches_entry_events.
Qed.

Lemma events_of_on_path d entries path :
  Map_wf entries →
  filter (λ e, touches path e) (events_of d entries) =
    match Map_get entries path with
    | Some v => entry_events d path v
    | None => []
    end.
Proof.
  rewrite filter_touches_events_of.
  unfold Map_wf, Map_keys. induction entries as [|[p v] l IH]; [done|].
  intros [Hp Hnd]%NoDup_cons. rewrite bind_cons, IH by done. simpl.
  destruct (decide (p = path)) as [->|Hne]; [|done].
  assert (Map_get l path = None) as -> by by apply Map_get_None.
  by rewrite app_nil_r.
Qed.

Lemma filter_touches_hook_event path sc d b :
  filter (λ e, touches path e) (hook_event sc d b) = [].
Proof. unfold hook_event. by destruct (first_failure d b), sc. Qed.

(** Among the events of a [commit], those on a path are the effect of the
    one entry staged for it, if the loop gets there. *)
Lemma commit_events_on_path sc w path :
  committed (this w) = false →
  Map_wf (buffer (this w)) →
  filter (λ e, touches path e) (new_events (commit sc) w) =
    match Map_get (processed (disk w) (buffer (this w))) path with
    | Some v => entry_events (disk w) path v
    | None => []
    end.
Proof.
  intros Hopen Hwf. rewrite commit_new_events by done.
  rewrite filter_app, filter_touches_hook_event, app_nil_r.
  apply events_of_on_path. by apply processed_wf.
Qed.

Lemma not_touched evs path e :
  filter (λ e, touches path e) evs = [] → e ∈ evs → touches path e = false.
Proof.
  intros Hnil Hin. destruct (touches path e) eqn:Ht; [|done].
  assert (e ∈ filter (λ e, touches path e) evs) as Hf.
  { apply list_elem_of_filter. split; [by rewrite Ht|done]. }
  rewrite Hnil in Hf. by apply elem_of_nil in Hf.
Qed.

Lemma commit_hook_calls sc w :
  committed (this w) = false →
  Map_wf (buffer (this w)) →
  hook_calls (new_events (commit sc) w) =
    hook_calls (hook_event sc (disk w) (buffer (this w))).
Proof.
  intros Hopen Hwf. rewrite commit_new_events by done.
  by rewrite hook_calls_app, hook_calls_events_of.
Qed.

Lemma hook_event_calls sc d b added removed :
  (added, removed) ∈ hook_calls (hook_event sc d b) →
  first_failure d b = None ∧ is_Some sc ∧
  added = written_of d b ∧ removed = removed_of b.
Proof.
  unfold hook_event. destruct (first_failure d b), sc as [h|]; simpl;
    try (by intros ?%elem_of_nil).
  intros [= -> ->]%list_elem_of_singleton. eauto.
Qed.

Lemma commit_loop_lists w removed added w' :
  Map_wf (buffer (this w)) →
  commit_loop (buffer (this w)) [] [] (mark_committed w) = (Ok (removed, added), w') →
  first_failure (disk w) (buffer (this w)) = None ∧
  removed = removed_of (buffer (this w)) ∧
  added = written_of (disk w) (buffer (this w)).
Proof.
  intros Hwf Hloop. rewrite commit_loop_spec in Hloop by done. simpl in Hloop.
  destruct (first_failure _ _); [done|]. by injection Hloop as <- <- _.
Qed.

(** ** C3: a write of what the disk already holds *)

(** C3. On an open object with a write of [data] staged for [path], if at
    the time of the commit the disk holds a file at [path] with content
    [data] (the disk of the world [commit] runs in, whatever the disk was
    when the write was staged), then [commit()] performs no physical
    operation on [path] (no write in particular), [path] is in neither
    list passed to the hook nor in the lists the loop builds, and the file
    is left as it was. *)
Theorem unchanged_write_skipped (sc : option SourceControl) (w : World)
    (path data : string) :
  committed (this w) = false →
  Map_wf (buffer (this w)) →
  Map_get (buffer (this w)) path = Some (Some data) →
  disk w !! path = Some (File data) →
  (∀ e, e ∈ new_events (commit sc) w → touches path e = false) ∧
  (∀ data', FsWrite path data' ∉ new_events (commit sc) w) ∧
  (∀ added removed, (added, removed) ∈ hook_calls (new_events (commit sc) w) →
     (path ∉ added) ∧ (path ∉ removed)) ∧
  (∀ removed added w',
     commit_loop (buffer (this w)) [] [] (mark_committed w) = (Ok (removed, added), w') →
     (path ∉ added) ∧ (path ∉ removed)) ∧
  disk (commit sc w).2 !! path = Some (File data).
Proof.
  intros Hopen Hwf Hget Hd.
  assert (Hadded : path ∉ written_of (disk w) (buffer (this w))).
  { rewrite elem_of_written_of by done. intros (data' & Hget' & Hne).
    rewrite Hget in Hget'. injection Hget' as <-. done. }
  assert (Hremoved : path ∉ removed_of (buffer (this w))).
  { rewrite elem_of_removed_of by done. by rewrite Hget. }
  assert (Hquiet : ∀ e, e ∈ new_events (commit sc) w → touches path e = false).
  { intros e. apply not_touched. rewrite commit_events_on_path by done.
    destruct (Map_get (processed _ _) path) as [v|] eqn:Hp; [|done].
    apply processed_get in Hp. rewrite Hget in Hp. injection Hp as <-.
    simpl. unfold differs. rewrite bool_decide_eq_false_2; [done|].
    intros Hne. by apply Hne. }
  split; [done|]. split; [|split; [|split]].
  - intros data' Hin. apply Hquiet in Hin. simpl in Hin.
    by rewrite bool_decide_eq_true_2 in Hin.
  - intros added removed Hin. rewrite commit_hook_calls in Hin by done.
    apply hook_event_calls in Hin as (_ & _ & -> & ->). done.
  - intros removed added w' Hloop.
    apply commit_loop_lists in Hloop as (_ & -> & ->); done.
  - rewrite commit_disk, disk_after_lookup by (done || by apply processed_wf).
    destruct (Map_get (processed _ _) path) as [v|] eqn:Hp; [|done].
    apply processed_get in Hp. rewrite Hget in Hp. by injection Hp as <-.
Qed.

Lemma unchanged_write_skipped_witness :
  let staged := run [CallWriteFileSync "b.out" "Y" "utf8"]
                    (fresh {["b.out" := File "OLD"]}) in
  let w := with_disk {["b.out" := File "Y"]} staged in
  (∀ e, e ∈ new_events (commit (Some accepting_hook)) w →
        touches "b.out" e = false) ∧
  new_events (commit (Some accepting_hook)) w = [HookAddRemove [] []].
Proof.
  split; [|by vm_compute].
  refine (proj1 (unchanged_write_skipped (Some accepting_hook)
    (with_disk {["b.out" := File "Y"]}
       (run [CallWriteFileSync "b.out" "Y" "utf8"]
            (fresh {["b.out" := File "OLD"]})))
    "b.out" "Y" eq_refl _ eq_refl eq_refl)).
  apply NoDup_singleton.
Defined.

(** ** C4: staged deletions and the hook *)

(** C4, as stated, fails: deletions of [c.out] (not on disk) and of
    [d.out] (a file on disk) are staged.  [fs.unlinkSync("c.out")] throws,
    [commit] rejects with that error, [d.out] is not deleted and the hook
    is not invoked. *)
Lemma staged_deletion_counterexample :
  let w := run [CallUnlinkSync "c.out"; CallUnlinkSync "d.out"]
               (fresh {["d.out" := File "D"]}) in
  Map_get (buffer (this w)) "d.out" = Some None ∧
  (commit (Some accepting_hook) w).1 = Throw (FsError ENOENT "c.out") ∧
  (FsUnlink "d.out" ∉ new_events (commit (Some accepting_hook)) w) ∧
  disk (commit (Some accepting_hook) w).2 !! "d.out" = Some (File "D") ∧
  hook_calls (new_events (commit (Some accepting_hook)) w) = [].
Proof.
  repeat split; try by vm_compute.
  intros Hin. vm_compute in Hin. by apply elem_of_nil in Hin.
Qed.

Lemma processed_split d (b : JsMap) path :
  first_failure d b = Some path →
  ∃ v post, b = processed d b ++ (path, v) :: post ∧ entry_ok d path v = false.
Proof.
  induction b as [|[p v] l IH]; simpl; [done|].
  destruct (entry_ok d p v) eqn:Hok.
  - intros Hff. destruct (IH Hff) as (v' & post & Hl & Hfail).
    exists v', post. split; [|done]. simpl. by rewrite <- Hl.
  - intros [= ->]. by exists v, l.
Qed.

(** The paths staged from the throwing entry on are not among those staged
    before it. *)
Lemma Map_wf_app_later (pre post : JsMap) q v :
  Map_wf (pre ++ post) → (q, v) ∈ post → Map_get pre q = None.
Proof.
  unfold Map_wf, Map_keys. rewrite fmap_app.
  intros (_ & Hdisj & _)%NoDup_app Hin.
  apply Map_get_None. intros Hq. apply (Hdisj q Hq).
  apply list_elem_of_fmap. by exists (q, v).
Qed.

(** C4, amended. On an open object, when the loop of [commit()] completes
    (no call of [fs] throws), every path staged as a deletion named a file
    on disk, was physically deleted and is in [removed]; [removed] holds
    those paths only; and a configured hook is invoked exactly once, with
    the [added] and [removed] lists the loop built (without a hook there
    is no invocation).  When a call of [fs] in the loop throws, at the
    entry staged for some [path], [commit()] rejects with that error, the
    hook is not invoked, and the entry for [path] and the entries staged
    after it are not applied: the events of the commit are those of the
    entries before [path], none of them touches a remaining path, and the
    remaining paths are on disk as they were. *)
Theorem staged_deletions_committed (sc : option SourceControl) (w : World) :
  committed (this w) = false →
  Map_wf (buffer (this w)) →
  let b := buffer (this w) in
  let evs := new_events (commit sc) w in
  (∀ removed added w',
     commit_loop b [] [] (mark_committed w) = (Ok (removed, added), w') →
     (∀ path, Map_get b path = Some None →
        (∃ data, disk w !! path = Some (File data)) ∧
        FsUnlink path ∈ evs ∧
        disk (commit sc w).2 !! path = None ∧
        path ∈ removed) ∧
     (∀ path, path ∈ removed → Map_get b path = Some None) ∧
     hook_calls evs = match sc with Some _ => [(added, removed)] | None => [] end) ∧
  (∀ e w',
     commit_loop b [] [] (mark_committed w) = (Throw e, w') →
     (commit sc w).1 = Throw e ∧
     hook_calls evs = [] ∧
     ∃ pre path v post,
       b = pre ++ (path, v) :: post ∧
       e = entry_error (disk w) path ∧
       evs = events_of (disk w) pre ∧
       ∀ q v', (q, v') ∈ (path, v) :: post →
         (∀ ev, ev ∈ evs → touches q ev = false) ∧
         disk (commit sc w).2 !! q = disk w !! q).
Proof.
  intros Hopen Hwf b evs. split.
  - intros removed added w' Hloop.
    apply commit_loop_lists in Hloop as (Hff & -> & ->); [|done].
    fold b in Hff |- *.
    assert (Hpr : processed (disk w) b = b) by by apply first_failure_None.
    split; [|split].
    + intros path Hget. split; [|split; [|split]].
      * assert (Hok : entry_ok (disk w) path None = true).
        { apply (processed_get_ok _ b). by rewrite Hpr. }
        unfold entry_ok in Hok.
        destruct (disk w !! path) as [[data|]|]; try done. by exists data.
      * assert (FsUnlink path ∈ filter (λ e, touches path e) evs) as Hin.
        { unfold evs. rewrite commit_events_on_path by done. fold b.
          rewrite Hpr, Hget. simpl. set_solver. }
        by apply list_elem_of_filter in Hin as [_ Hin].
      * rewrite commit_disk, disk_after_lookup by (done || by apply processed_wf).
        fold b. by rewrite Hpr, Hget.
      * by apply elem_of_removed_of.
    + intros path. by apply elem_of_removed_of.
    + unfold evs. rewrite commit_hook_calls by done. fold b.
      unfold hook_event. rewrite Hff. by destruct sc.
  - intros e w' Hloop.
    assert (Hres : (commit sc w).1 = Throw e).
    { rewrite commit_open by done. fold b. by rewrite Hloop. }
    rewrite commit_loop_spec in Hloop by done. simpl in Hloop. fold b in Hloop.
    destruct (first_failure (disk w) b) as [path|] eqn:Hff; [|done].
    injection Hloop as <- _.
    assert (Hevs : evs = events_of (disk w) (processed (disk w) b)).
    { unfold evs. rewrite commit_new_events by done. fold b.
      unfold hook_event. by rewrite Hff, app_nil_r. }
    split; [done|]. split.
    { rewrite Hevs. apply hook_calls_events_of. }
    destruct (processed_split _ _ _ Hff) as (v & post & Hb & _).
    assert (Hwfpre : Map_wf (processed (disk w) b)) by by apply processed_wf.
    exists (processed (disk w) b), path, v, post.
    split; [done|]. split; [done|]. split; [done|].
    intros q v' Hin.
    assert (Hnone : Map_get (processed (disk w) b) q = None).
    { apply (Map_wf_app_later _ ((path, v) :: post) q v'); [|done].
      by rewrite <- Hb. }
    split.
    + intros ev. apply not_touched. rewrite Hevs.
      rewrite events_of_on_path by done. by rewrite Hnone.
    + rewrite commit_disk by done. fold b.
      rewrite disk_after_lookup by done. by rewrite Hnone.
Qed.

Lemma staged_deletions_committed_witness :
  let w := run [CallUnlinkSync "c.out"] (fresh {["c.out" := File "C"]}) in
  (∃ data, disk w !! "c.out" = Some (File data)) ∧
  FsUnlink "c.out" ∈ new_events (commit (Some accepting_hook)) w ∧
  disk (commit (Some accepting_hook) w).2 !! "c.out" = None ∧
  "c.out" ∈ ["c.out"].
Proof.
  pose (w := run [CallUnlinkSync "c.out"] (fresh {["c.out" := File "C"]})).
  assert (Hwf : Map_wf (buffer (this w))) by apply run_wf, fresh_wf.
  refine (proj1 (proj1 (staged_deletions_committed (Some accepting_hook) w
    eq_refl Hwf) ["c.out"] []
    (mkWorld (mkBufferedFilesystem [("c.out", None)] true) ∅ [FsUnlink "c.out"])
    _) "c.out" eq_refl).
  by vm_compute.
Defined.

(** ** C6: [commit] is a function of the buffer and of the disk *)

(** The loop reads the buffer entries and the disk only: from two worlds
    with the same disk it returns the same lists, leaves the same disk and
    adds the same events. *)
Lemma commit_loop_frame entries : ∀ removed added w,
  ∃ res d' evs,
    ∀ w2, disk w2 = disk w →
      commit_loop entries removed added w2 =
        (res, {| this := this w2; disk := d'; trace := trace w2 ++ evs |}).
Proof.
  induction entries as [|[p v] l IH]; intros removed added w.
  - exists (Ok (removed, added)), (disk w), []. intros w2 Hd. simpl.
    unfold_M. by rewrite app_nil_r, <- Hd, World_eta.
  - destruct (entry_ok (disk w) p v) eqn:Hok.
    + destruct (IH (removed ++ entry_removed p v)
                   (added ++ entry_added (disk w) p v)
                   {| this := this w; disk := entry_disk (disk w) p v;
                      trace := trace w ++ entry_events (disk w) p v |})
        as (res & d' & evs & Hrest).
      exists res, d', (entry_events (disk w) p v ++ evs).
      intros w2 Hd. simpl. rewrite <- Hd in Hok.
      rewrite (bind_Ok _ _ _ _ _ (commit_body_ok p v removed added w2 Hok)).
      rewrite Hd. rewrite Hrest by done. simpl. by rewrite app_assoc.
    + exists (Throw (entry_error (disk w) p)), (disk w), [].
      intros w2 Hd. simpl. rewrite <- Hd in Hok.
      rewrite (bind_Throw _ _ _ _ _ (commit_body_fail p v removed added w2 Hok)).
      by rewrite app_nil_r, <- Hd, World_eta.
Qed.

Lemma new_events_intro {A} (m : M A) w r t d evs :
  m w = (r, {| this := t; disk := d; trace := trace w ++ evs |}) →
  new_events m w = evs.
Proof. intros H. unfold new_events. rewrite H. simpl. apply drop_app_length. Qed.

Lemma fs_events_app evs evs' : fs_events (evs ++ evs') = fs_events evs ++ fs_events evs'.
Proof. apply filter_app. Qed.

(** C6. Two runs of [commit()] on objects with the same buffer (both open,
    or both committed) over the same disk, whatever hooks they are given
    and whatever happened before: the loops build the same [added] and
    [removed] lists (or throw the same error), the runs perform the same
    physical operations and leave the same disk; two configured hooks
    receive the same lists, and with the same hook the two runs return the
    same result. *)
Theorem commit_deterministic (sc1 sc2 : option SourceControl) (w1 w2 : World) :
  buffer (this w1) = buffer (this w2) →
  committed (this w1) = committed (this w2) →
  disk w1 = disk w2 →
  (commit_loop (buffer (this w1)) [] [] (mark_committed w1)).1 =
    (commit_loop (buffer (this w2)) [] [] (mark_committed w2)).1 ∧
  disk (commit sc1 w1).2 = disk (commit sc2 w2).2 ∧
  fs_events (new_events (commit sc1) w1) = fs_events (new_events (commit sc2) w2) ∧
  (is_Some sc1 → is_Some sc2 →
     hook_calls (new_events (commit sc1) w1) =
     hook_calls (new_events (commit sc2) w2)) ∧
  (sc1 = sc2 → (commit sc1 w1).1 = (commit sc2 w2).1).
Proof.
  destruct w1 as [[b c] d tr1], w2 as [[b2 c2] d2 tr2]. simpl.
  intros <- <- <-.
  set (w1 := mkWorld (mkBufferedFilesystem b c) d tr1).
  set (w2 := mkWorld (mkBufferedFilesystem b c) d tr2).
  destruct (commit_loop_frame b [] [] (mark_committed w1))
    as (res & d' & evs & Hloop).
  split; [by rewrite (Hloop (mark_committed w1)), (Hloop (mark_committed w2))|].
  destruct c.
  - rewrite !commit_committed by done. unfold new_events.
    rewrite !commit_committed by done. simpl. rewrite !drop_all.
    repeat split; done.
  - assert (Hcommit : ∀ sc w, committed (this w) = false →
              buffer (this w) = b → disk w = d →
              commit sc w =
                match res, sc with
                | Ok (removed, added), Some h =>
                    (if addRemove_outcome h added removed
                     then Ok () else Throw HookRejected,
                     {| this := this (mark_committed w); disk := d';
                        trace := trace w ++ (evs ++ [HookAddRemove added removed]) |})
                | Ok _, None =>
                    (Ok (), {| this := this (mark_committed w); disk := d';
                               trace := trace w ++ evs |})
                | Throw e, _ =>
                    (Throw e, {| this := this (mark_committed w); disk := d';
                                 trace := trace w ++ evs |})
                end).
    { intros sc w Hw Hbw Hdw. rewrite commit_open by done.
      rewrite Hbw. rewrite (Hloop (mark_committed w)) by done.
      destruct res as [[removed added]|e]; [|done].
      destruct sc as [h|]; [|done]. rewrite addRemove_spec. simpl.
      by rewrite app_assoc. }
    assert (Hev : ∀ sc w, committed (this w) = false →
              buffer (this w) = b → disk w = d →
              new_events (commit sc) w =
                evs ++ match res, sc with
                       | Ok (removed, added), Some _ => [HookAddRemove added removed]
                       | _, _ => []
                       end).
    { intros sc w Hw Hbw Hdw. specialize (Hcommit sc w Hw Hbw Hdw).
      destruct res as [[removed added]|e]; [destruct sc as [h|]|];
        rewrite (new_events_intro _ _ _ _ _ _ Hcommit); by rewrite ?app_nil_r. }
    rewrite (Hev sc1 w1), (Hev sc2 w2) by done.
    rewrite (Hcommit sc1 w1), (Hcommit sc2 w2) by done.
    clear Hcommit Hev Hloop.
    repeat split.
    + by destruct res as [[removed added]|e], sc1, sc2.
    + rewrite !fs_events_app. f_equal.
      by destruct res as [[removed added]|e], sc1, sc2.
    + by intros [h1 ->] [h2 ->].
    + intros ->. by destruct res as [[removed added]|e], sc2.
Qed.

Lemma commit_deterministic_witness :
  let w1 := run [CallWriteFileSync "a.out" "X" "utf8"; CallUnlinkSync "c.out"]
                (fresh {["c.out" := File "C"]}) in
  let w2 := run [CallExistsSync "a.out"; CallWriteFileSync "a.out" "X" "utf8";
                 CallReadFileSync "a.out" "utf8"; CallUnlinkSync "c.out"]
                (fresh {["c.out" := File "C"]}) in
  disk (commit None w1).2 = disk (commit (Some accepting_hook) w2).2 ∧
  fs_events (new_events (commit None) w1) =
    fs_events (new_events (commit (Some accepting_hook)) w2).
Proof.
  pose (w1 := run [CallWriteFileSync "a.out" "X" "utf8"; CallUnlinkSync "c.out"]
                  (fresh {["c.out" := File "C"]})).
  pose (w2 := run [CallExistsSync "a.out"; CallWriteFileSync "a.out" "X" "utf8";
                   CallReadFileSync "a.out" "utf8"; CallUnlinkSync "c.out"]
                  (fresh {["c.out" := File "C"]})).
  destruct (commit_deterministic None (Some accepting_hook) w1 w2
              eq_refl eq_refl eq_refl) as (_ & Hdisk & Hfs & _).
  exact (conj Hdisk Hfs).
Defined.

(** ** C7: what staging does to the real filesystem *)

(** C7, as stated, fails: [mkdirSync] is passed straight to [fs]; on an
    empty disk, before any [commit()], the directory is there. *)
Lemma mkdirSync_counterexample :
  let w := run [CallMkdirSync "out"] (fresh ∅) in
  committed (this w) = false ∧
  buffer (this w) = [] ∧
  disk w = {["out" := Dir]} ∧
  disk w ≠ disk (fresh ∅) ∧
  trace w = [FsMkdir "out"].
Proof.
  repeat split; by vm_compute.
Qed.

Lemma run_cons c calls w : run (c :: calls) w = run calls (call c w).2.
Proof. done. Qed.

Lemma run_staging_disk calls : ∀ w path,
  forallb is_staging calls = true →
  committed (this w) = false →
  disk (run calls w) !! path = disk w !! path ∨
  (disk w !! path = None ∧ disk (run calls w) !! path = Some Dir ∧
   CallMkdirSync path ∈ calls).
Proof.
  induction calls as [|c calls IH]; intros w path Hs Hopen; [by left|].
  simpl in Hs. apply andb_prop in Hs as [Hc Hs]. rewrite run_cons.
  pose proof (call_staging_world c w Hc Hopen) as Hw1.
  destruct (IH (call c w).2 path Hs) as [Heq|(Hnone & Hdir & Hin)].
  { by rewrite Hw1. }
  - rewrite Heq, Hw1. simpl.
    destruct c; simpl; try by left.
    destruct (disk w !! path0) eqn:Hd; [by left|].
    destruct (decide (path0 = path)) as [->|Hne].
    + right. rewrite lookup_insert_eq. repeat split; [done|]. set_solver.
    + left. by rewrite lookup_insert_ne.
  - right. rewrite Hw1 in Hnone. simpl in Hnone.
    split; [|split; [done|set_solver]].
    destruct c; simpl in Hnone; try done.
    destruct (disk w !! path0) eqn:Hd; [done|].
    destruct (decide (path0 = path)) as [->|Hne].
    + by rewrite lookup_insert_eq in Hnone.
    + by rewrite lookup_insert_ne in Hnone.
Qed.

Lemma run_staging_no_mkdir calls : ∀ w,
  forallb is_staging calls = true →
  committed (this w) = false →
  (∀ path, CallMkdirSync path ∉ calls) →
  disk (run calls w) = disk w ∧ trace (run calls w) = trace w.
Proof.
  induction calls as [|c calls IH]; intros w Hs Hopen Hno; [done|].
  simpl in Hs. apply andb_prop in Hs as [Hc Hs]. rewrite run_cons.
  pose proof (call_staging_world c w Hc Hopen) as Hw1.
  destruct (IH (call c w).2 Hs) as [-> ->].
  - by rewrite Hw1.
  - intros path Hin. apply (Hno path). set_solver.
  - rewrite Hw1. simpl.
    destruct c; simpl; rewrite ?app_nil_r; try done.
    exfalso. apply (Hno path). set_solver.
Qed.

(** C7, amended. For every sequence of calls other than [commit()], from
    any world: every file of the real filesystem keeps its content and no
    file appears or disappears; the only change is that a [mkdirSync(path)]
    of the sequence, passed straight to [fs], may have created the
    directory [path] where nothing existed; a sequence without [mkdirSync]
    (writes, deletions, reads, existence checks, ...) leaves the real
    filesystem as it was and performs no physical operation. *)
Theorem staging_leaves_disk (calls : list Call) (w : World) :
  forallb is_staging calls = true →
  let w' := run calls w in
  (∀ path data,
     disk w' !! path = Some (File data) ↔ disk w !! path = Some (File data)) ∧
  (∀ path,
     disk w' !! path = disk w !! path ∨
     (disk w !! path = None ∧ disk w' !! path = Some Dir ∧
      CallMkdirSync path ∈ calls)) ∧
  ((∀ path, CallMkdirSync path ∉ calls) →
     disk w' = disk w ∧ trace w' = trace w).
Proof.
  intros Hs w'. destruct (committed (this w)) eqn:Hc.
  { unfold w'. destruct (run_committed calls w Hc) as [-> _].
    repeat split; auto. }
  assert (Hdisk := λ path, run_staging_disk calls w path Hs Hc). fold w' in Hdisk.
  split; [|split; [done|]].
  - intros path data.
    destruct (Hdisk path) as [->|(Hnone & Hdir & _)]; [done|].
    rewrite Hnone, Hdir. split; done.
  - by apply run_staging_no_mkdir.
Qed.

Lemma staging_leaves_disk_witness :
  let calls := [CallWriteFileSync "a.out" "X" "utf8"; CallUnlinkSync "c.out";
                CallReadFileSync "a.out" "utf8"; CallExistsSync "c.out"] in
  let w := fresh {["c.out" := File "C"]} in
  disk (run calls w) = disk w ∧ trace (run calls w) = trace w.
Proof.
  refine (proj2 (proj2 (staging_leaves_disk
    [CallWriteFileSync "a.out" "X" "utf8"; CallUnlinkSync "c.out";
     CallReadFileSync "a.out" "utf8"; CallExistsSync "c.out"]
    (fresh {["c.out" := File "C"]}) eq_refl)) _).
  intros path Hin. repeat (apply elem_of_cons in Hin as [Hin|Hin]; [done|]).
  by apply elem_of_nil in Hin.
Defined.

(** ** C10: the last operation staged on a path wins *)

Lemma run_staging_get calls : ∀ w path,
  forallb is_staging calls = true →
  committed (this w) = false →
  Map_get (buffer (this (run calls w))) path =
    last_staged path calls (Map_get (buffer (this w)) path).
Proof.
  induction calls as [|c calls IH]; intros w path Hs Hopen; [done|].
  simpl in Hs. apply andb_prop in Hs as [Hc Hs]. rewrite run_cons.
  pose proof (call_staging_world c w Hc Hopen) as Hw1.
  rewrite IH by (done || by rewrite Hw1).
  unfold last_staged. simpl. f_equal. rewrite Hw1. simpl.
  destruct c; simpl; try done.
  - destruct (decide (path0 = path)) as [->|Hne].
    + apply Map_get_set_eq.
    + by apply Map_get_set_ne.
  - destruct (decide (filename = path)) as [->|Hne].
    + apply Map_get_set_eq.
    + by apply Map_get_set_ne.
Qed.

(** The effects of a [commit] on one path, from what is staged for it. *)
Lemma commit_on_path sc w path :
  committed (this w) = false →
  Map_wf (buffer (this w)) →
  let staged := Map_get (buffer (this w)) path in
  let evs := filter (λ e, touches path e) (new_events (commit sc) w) in
  (length evs ≤ 1)%nat ∧
  (∀ e, e ∈ evs →
     match staged with
     | Some None => e = FsUnlink path
     | Some (Some data) => e = FsWrite path data
     | None => False
     end) ∧
  (∀ removed added w',
     commit_loop (buffer (this w)) [] [] (mark_committed w) = (Ok (removed, added), w') →
     match staged with
     | Some None =>
         evs = [FsUnlink path] ∧ disk (commit sc w).2 !! path = None
     | Some (Some data) =>
         evs = (if differs (disk w) path data then [FsWrite path data] else []) ∧
         disk (commit sc w).2 !! path = Some (File data)
     | None =>
         evs = [] ∧ disk (commit sc w).2 !! path = disk w !! path
     end).
Proof.
  intros Hopen Hwf staged evs.
  assert (Hevs : evs =
            match Map_get (processed (disk w) (buffer (this w))) path with
            | Some v => entry_events (disk w) path v
            | None => []
            end) by by apply commit_events_on_path.
  split; [|split].
  - rewrite Hevs. destruct (Map_get (processed _ _) path) as [[data|]|];
      simpl; try lia. destruct (differs _ _ _); simpl; lia.
  - intros e. rewrite Hevs.
    destruct (Map_get (processed _ _) path) as [v|] eqn:Hp;
      [|by intros ?%elem_of_nil].
    apply processed_get in Hp. unfold staged. rewrite Hp.
    destruct v as [data|]; simpl.
    + destruct (differs _ _ _); [|by intros ?%elem_of_nil].
      by intros ->%list_elem_of_singleton.
    + by intros ->%list_elem_of_singleton.
  - intros removed added w' Hloop.
    apply commit_loop_lists in Hloop as (Hff & _ & _); [|done].
    apply first_failure_None in Hff.
    rewrite Hff in Hevs. fold staged in Hevs.
    rewrite commit_disk, Hff, disk_after_lookup by done. fold staged.
    destruct staged as [[data|]|]; by rewrite Hevs.
Qed.

(** C10, as stated, fails.  First input: a deletion and then a write of
    "Y" are staged for [b.out], which holds "Y" on disk; the buffer keeps
    the write only, [commit] completes, and it applies no effect at all to
    [b.out]: not exactly one.  Second input: a write and then a deletion
    are staged for [t.out], and a write for [a.out], neither on disk; the
    buffer keeps the deletion of [t.out], [fs.unlinkSync] throws on it and
    [commit] stops: nothing is applied to [a.out] either. *)
Lemma one_effect_per_path_counterexample :
  (let w := run [CallUnlinkSync "b.out"; CallWriteFileSync "b.out" "Y" "utf8"]
                (fresh {["b.out" := File "Y"]}) in
   buffer (this w) = [("b.out", Some "Y")] ∧
   (commit None w).1 = Ok () ∧
   filter (λ e, touches "b.out" e) (new_events (commit None) w) = [] ∧
   length (filter (λ e, touches "b.out" e) (new_events (commit None) w)) ≠ 1) ∧
  (let w := run [CallWriteFileSync "t.out" "T" "utf8"; CallUnlinkSync "t.out";
                 CallWriteFileSync "a.out" "X" "utf8"] (fresh ∅) in
   buffer (this w) = [("t.out", None); ("a.out", Some "X")] ∧
   (commit None w).1 = Throw (FsError ENOENT "t.out") ∧
   new_events (commit None) w = [] ∧
   disk (commit None w).2 !! "a.out" = None).
Proof. repeat split; by vm_compute. Qed.

(** C10, amended. After any sequence of calls other than [commit()] on an
    open object, the buffer has one entry per path and maps each path to
    the last operation staged on it: a [writeFileSync] after an
    [unlinkSync] of the same path leaves the write only (a later commit
    does not delete the path), an [unlinkSync] after a [writeFileSync]
    leaves the deletion only (a later commit does not write the path).
    [commit()] applies at most one physical effect per path, and only
    that of the last operation staged; when its loop completes the effect
    is: the delete for a staged deletion, the write for a staged write
    whose content differs from the disk, and none for a staged write of
    what the disk already holds; the path then is on disk as the last
    operation asked. *)
Theorem last_staged_wins (calls : list Call) (w : World) (path : string) :
  forallb is_staging calls = true →
  committed (this w) = false →
  Map_wf (buffer (this w)) →
  let w' := run calls w in
  let last := last_staged path calls (Map_get (buffer (this w)) path) in
  Map_get (buffer (this w')) path = last ∧
  Map_wf (buffer (this w')) ∧
  (∀ data enc sc,
     let w2 := run [CallUnlinkSync path; CallWriteFileSync path data enc] w in
     Map_get (buffer (this w2)) path = Some (Some data) ∧
     (FsUnlink path ∉ new_events (commit sc) w2)) ∧
  (∀ data enc sc,
     let w2 := run [CallWriteFileSync path data enc; CallUnlinkSync path] w in
     Map_get (buffer (this w2)) path = Some None ∧
     ∀ data', FsWrite path data' ∉ new_events (commit sc) w2) ∧
  (∀ sc,
     let evs := filter (λ e, touches path e) (new_events (commit sc) w') in
     (length evs ≤ 1)%nat ∧
     (∀ e, e ∈ evs →
        match last with
        | Some None => e = FsUnlink path
        | Some (Some data) => e = FsWrite path data
        | None => False
        end) ∧
     (∀ removed added w'',
        commit_loop (buffer (this w')) [] [] (mark_committed w') =
          (Ok (removed, added), w'') →
        match last with
        | Some None =>
            evs = [FsUnlink path] ∧ disk (commit sc w').2 !! path = None
        | Some (Some data) =>
            evs = (if differs (disk w') path data
                   then [FsWrite path data] else []) ∧
            disk (commit sc w').2 !! path = Some (File data)
        | None =>
            evs = [] ∧ disk (commit sc w').2 !! path = disk w' !! path
        end)).
Proof.
  intros Hs Hopen Hwf w' last.
  assert (Hgen : ∀ cs, forallb is_staging cs = true →
            committed (this (run cs w)) = false ∧
            Map_wf (buffer (this (run cs w))) ∧
            Map_get (buffer (this (run cs w))) path =
              last_staged path cs (Map_get (buffer (this w)) path)).
  { intros cs Hcs. split; [by apply run_staging_open|].
    split; [by apply run_wf|by apply run_staging_get]. }
  assert (Hmem : ∀ (e : Event) (evs : list Event), touches path e = true → e ∈ evs →
            e ∈ filter (λ e, touches path e) evs).
  { intros e evs Ht Hin. apply list_elem_of_filter. by rewrite Ht. }
  destruct (Hgen calls Hs) as (Hopen' & Hwf' & Hget').
  split; [done|]. split; [done|]. split; [|split].
  - intros data enc sc w2.
    destruct (Hgen [CallUnlinkSync path; CallWriteFileSync path data enc] eq_refl)
      as (Hopen2 & Hwf2 & Hget2). fold w2 in Hopen2, Hwf2, Hget2.
    unfold last_staged in Hget2. simpl in Hget2.
    rewrite !decide_True in Hget2 by done. split; [done|].
    intros Hin. apply (Hmem (FsUnlink path) _ (bool_decide_eq_true_2 _ eq_refl)) in Hin.
    apply (commit_on_path sc w2 path Hopen2 Hwf2) in Hin.
    by rewrite Hget2 in Hin.
  - intros data enc sc w2.
    destruct (Hgen [CallWriteFileSync path data enc; CallUnlinkSync path] eq_refl)
      as (Hopen2 & Hwf2 & Hget2). fold w2 in Hopen2, Hwf2, Hget2.
    unfold last_staged in Hget2. simpl in Hget2.
    rewrite !decide_True in Hget2 by done. split; [done|].
    intros data' Hin.
    apply (Hmem (FsWrite path data') _ (bool_decide_eq_true_2 _ eq_refl)) in Hin.
    apply (commit_on_path sc w2 path Hopen2 Hwf2) in Hin.
    by rewrite Hget2 in Hin.
  - intros sc. subst last w'. rewrite <- Hget'.
    by apply commit_on_path.
Qed.

Lemma last_staged_wins_witness :
  let w := fresh {["c.out" := File "C"]} in
  let w2 := run [CallWriteFileSync "c.out" "X" "utf8"; CallUnlinkSync "c.out"] w in
  Map_get (buffer (this w2)) "c.out" = Some None ∧
  ∀ data', FsWrite "c.out" data' ∉ new_events (commit None) w2.
Proof.
  exact (proj1 (proj2 (proj2 (proj2
    (last_staged_wins [] (fresh {["c.out" := File "C"]}) "c.out"
       eq_refl eq_refl (fresh_wf _))))) "X" "utf8" None).
Defined.

(** * Further properties of the class *)

(** ** The buffer only grows, in first-staging order *)

Lemma Map_keys_set_eq m k v :
  Map_keys (Map_set m k v) =
    if Map_has m k then Map_keys m else Map_keys m ++ [k].
Proof.
  unfold Map_keys. induction m as [|[k0 v0] m IH]; simpl; [done|].
  unfold Map_has in *. simpl.
  destruct (decide (k0 = k)) as [->|Hne]; simpl.
  - done.
  - change (k0 :: (Map_set m k v).*1 =
            if bool_decide (is_Some (Map_get m k))
            then k0 :: m.*1 else (k0 :: m.*1) ++ [k]).
    rewrite IH. by destruct (bool_decide (is_Some (Map_get m k))).
Qed.

Lemma call_buffer c w :
  buffer (this (call c w).2) =
    if committed (this w) then buffer (this w)
    else staged_by c (buffer (this w)).
Proof.
  destruct (committed (this w)) eqn:Hcm.
  - by rewrite call_committed.
  - destruct (is_staging c) eqn:Hc.
    + by rewrite call_staging_world.
    + destruct c; try done. unfold call. simpl.
      assert (∀ entries removed added w0,
                this (commit_loop entries removed added w0).2 = this w0) as Hloop.
      { clear. induction entries as [|[p v] l IH]; intros removed added w0; [done|].
        simpl. destruct (entry_ok (disk w0) p v) eqn:Hok.
        - rewrite (bind_Ok _ _ _ _ _ (commit_body_ok p v removed added w0 Hok)).
          by rewrite IH.
        - by rewrite (bind_Throw _ _ _ _ _ (commit_body_fail p v removed added w0 Hok)). }
      unfold mbind, M_bind at 1. rewrite commit_open by done.
      specialize (Hloop (buffer (this w)) [] [] (mark_committed w)).
      destruct (commit_loop _ _ _ _) as [[[removed added]|e] w']; simpl in *.
      * destruct sourceControl as [sc|]; [rewrite addRemove_spec|]; simpl;
          try destruct (addRemove_outcome _ _ _); simpl; by rewrite Hloop.
      * by rewrite Hloop.
Qed.

Lemma run_staging_keys calls : ∀ w,
  forallb is_staging calls = true →
  committed (this w) = false →
  Map_keys (buffer (this (run calls w))) =
    first_staged calls (Map_keys (buffer (this w))).
Proof.
  unfold first_staged.
  induction calls as [|c calls IH]; intros w Hs Hopen; [done|].
  simpl in Hs. apply andb_prop in Hs as [Hc Hs]. rewrite run_cons.
  pose proof (call_staging_world c w Hc Hopen) as Hw1.
  rewrite IH by (done || by rewrite Hw1). simpl. f_equal.
  rewrite Hw1. simpl.
  assert (Hset : ∀ p v, Map_keys (Map_set (buffer (this w)) p v) =
            if bool_decide (p ∈ Map_keys (buffer (this w)))
            then Map_keys (buffer (this w))
            else Map_keys (buffer (this w)) ++ [p]).
  { intros p v. rewrite Map_keys_set_eq.
    destruct (Map_has (buffer (this w)) p) eqn:Hhas.
    - apply Map_has_true in Hhas. by rewrite bool_decide_eq_true_2.
    - rewrite bool_decide_eq_false_2; [done|].
      intros Hin. apply Map_has_true in Hin. congruence. }
  destruct c; simpl; try done; apply Hset.
Qed.

Lemma touched_paths_app evs evs' :
  touched_paths (evs ++ evs') = touched_paths evs ++ touched_paths evs'.
Proof. apply omap_app. Qed.

(** The loop of [commit] goes through the entries in the order of the
    [Map]: the paths of its effects are a sublist of the keys. *)
Lemma commit_loop_touched entries : ∀ removed added w,
  ∃ evs,
    trace (commit_loop entries removed added w).2 = trace w ++ evs ∧
    touched_paths evs `sublist_of` Map_keys entries.
Proof.
  induction entries as [|[p v] l IH]; intros removed added w.
  - exists []. simpl. by rewrite app_nil_r.
  - simpl. destruct (entry_ok (disk w) p v) eqn:Hok.
    + rewrite (bind_Ok _ _ _ _ _ (commit_body_ok p v removed added w Hok)).
      edestruct IH as (evs & -> & Hsub).
      exists (entry_events (disk w) p v ++ evs). simpl.
      split; [by rewrite app_assoc|].
      rewrite touched_paths_app.
      apply (sublist_app _ [p] _ (Map_keys l)); [|done].
      destruct v as [data|]; simpl; [|done].
      destruct (differs (disk w) p data); [done|apply sublist_nil_l].
    + rewrite (bind_Throw _ _ _ _ _ (commit_body_fail p v removed added w Hok)).
      exists []. split; [by rewrite app_nil_r|apply sublist_nil_l].
Qed.

Lemma commit_touched sc w :
  touched_paths (new_events (commit sc) w) `sublist_of` Map_keys (buffer (this w)).
Proof.
  unfold new_events. destruct (committed (this w)) eqn:Hcm.
  - rewrite commit_committed by done. simpl. rewrite drop_all.
    apply sublist_nil_l.
  - rewrite commit_open by done.
    destruct (commit_loop_touched (buffer (this w)) [] [] (mark_committed w))
      as (evs & Htr & Hsub). simpl in Htr.
    destruct (commit_loop _ _ _ _) as [[[removed added]|e] w'] eqn:Hloop;
      simpl in Htr.
    + destruct sc as [h|]; [rewrite addRemove_spec|]; simpl; rewrite Htr.
      * rewrite <- app_assoc, drop_app_length, touched_paths_app. simpl.
        by rewrite app_nil_r.
      * by rewrite drop_app_length.
    + simpl. by rewrite Htr, drop_app_length.
Qed.

(** X1. Whatever calls are made (staging calls, queries, [commit()], calls
    after commit), the paths of the buffer before them stay in the buffer,
    in the same order, and new paths come after them: nothing is ever
    unstaged.  After calls other than [commit()] on an open object the
    buffer lists the staged paths once each, in the order in which they
    were first staged; and [commit()] goes through the buffer in that
    order: the paths of its physical effects, in the order they happen,
    are a sublist of the paths of the buffer. *)
Theorem buffer_keys_grow (calls : list Call) (w : World)
    (sc : option SourceControl) :
  Map_keys (buffer (this w)) `prefix_of` Map_keys (buffer (this (run calls w))) ∧
  (forallb is_staging calls = true → committed (this w) = false →
     Map_keys (buffer (this (run calls w))) =
       first_staged calls (Map_keys (buffer (this w))) ∧
     touched_paths (new_events (commit sc) (run calls w)) `sublist_of`
       first_staged calls (Map_keys (buffer (this w)))) ∧
  touched_paths (new_events (commit sc) (run calls w)) `sublist_of`
    Map_keys (buffer (this (run calls w))).
Proof.
  split; [|split].
  - revert w. induction calls as [|c calls IH]; intros w; [done|].
    rewrite run_cons. etrans; [|apply IH].
    rewrite call_buffer. destruct (committed (this w)); [done|].
    destruct c; simpl; try done; rewrite Map_keys_set_eq;
      destruct (Map_has _ _); try done; by apply prefix_app_r.
  - intros Hs Hopen. rewrite <- run_staging_keys by done.
    split; [done|apply commit_touched].
  - apply commit_touched.
Qed.

Lemma buffer_keys_grow_witness :
  let calls := [CallWriteFileSync "b.out" "B" "utf8"; CallUnlinkSync "a.out";
                CallWriteFileSync "a.out" "X" "utf8"; CallUnlinkSync "c.out";
                CallWriteFileSync "b.out" "B2" "utf8"] in
  let w := run calls (fresh {["c.out" := File "C"]}) in
  Map_keys (buffer (this w)) = ["b.out"; "a.out"; "c.out"] ∧
  touched_paths (new_events (commit None) w) `sublist_of`
    ["b.out"; "a.out"; "c.out"].
Proof.
  exact (proj1 (proj2 (buffer_keys_grow
    [CallWriteFileSync "b.out" "B" "utf8"; CallUnlinkSync "a.out";
     CallWriteFileSync "a.out" "X" "utf8"; CallUnlinkSync "c.out";
     CallWriteFileSync "b.out" "B2" "utf8"]
    (fresh {["c.out" := File "C"]}) None)) eq_refl eq_refl).
Defined.

(** ** Queries change nothing *)

Lemma call_query c w : is_query c = true → (call c w).2 = w.
Proof.
  intros Hq. destruct (committed (this w)) eqn:Hcm.
  - by rewrite call_committed.
  - rewrite call_staging_world by (done || by destruct c).
    destruct w as [[b cm] d tr]. simpl in *. subst cm.
    destruct c; try done; simpl; by rewrite app_nil_r.
Qed.

(** X2. [hasChanges], [getAddedRemovedFiles], [existsSync], [readdirSync],
    [readFileSync], [statSync] and [changedFilesToJSON] are read-only: in
    every state, whether they return or throw, a sequence of them leaves
    the buffer, the committed flag and the real filesystem as they were,
    and so each of them returns the same result when asked again after
    the sequence. *)
Theorem queries_read_only (calls : list Call) (w : World) :
  forallb is_query calls = true →
  run calls w = w ∧
  ∀ c, (call c (run calls w)).1 = (call c w).1.
Proof.
  intros Hq. assert (run calls w = w) as ->; [|done].
  revert w. induction calls as [|c calls IH]; intros w; [done|].
  simpl in Hq. apply andb_prop in Hq as [Hc Hq].
  rewrite run_cons, call_query by done. by apply IH.
Qed.

Lemma queries_read_only_witness :
  let calls := [CallReadFileSync "gone.out" "utf8"; CallReaddirSync "dir";
                CallGetAddedRemovedFiles; CallStatSync "a.out"] in
  let w := run [CallWriteFileSync "a.out" "X" "utf8"] (fresh ∅) in
  run calls w = w.
Proof.
  exact (proj1 (queries_read_only
    [CallReadFileSync "gone.out" "utf8"; CallReaddirSync "dir";
     CallGetAddedRemovedFiles; CallStatSync "a.out"]
    (run [CallWriteFileSync "a.out" "X" "utf8"] (fresh ∅)) eq_refl)).
Defined.

(** ** [readdirSync] is not supported *)

(** [readdirSync] never returns a listing: on an open object it throws
    the plain error "readdirSync is not implemented", on a committed one
    the invariant violation of the guard (the guard comes first); in both
    cases nothing changes. *)
Lemma readdirSync_throws (path : string) (w : World) :
  readdirSync path w =
    (Throw (if committed (this w)
            then InvariantViolation no_ops_msg
            else PlainError readdir_msg), w).
Proof.
  unfold readdirSync. destruct (committed (this w)) eqn:Hcm.
  - by rewrite (bind_Throw _ _ _ _ _ (assert_committed w Hcm)).
  - by rewrite (bind_Ok _ _ _ _ _ (assert_open w Hcm)).
Qed.

(** ** [changedFilesToJSON] and [getAddedRemovedFiles] *)

Lemma changedFilesToJSON_spec w :
  committed (this w) = false →
  changedFilesToJSON w =
    (Ok (omap (λ '(path, data), pair path <$> data) (buffer (this w)),
         removed_of (buffer (this w))), w).
Proof.
  intros H. unfold changedFilesToJSON.
  rewrite (bind_Ok _ _ _ _ _ (assert_open w H)). unfold_M.
  do 3 f_equal. unfold removed_of.
  induction (buffer (this w)) as [|[p v] l IH]; [done|].
  rewrite bind_cons, <- IH. by destruct v.
Qed.

Lemma elem_of_changed b p data :
  Map_wf b →
  (p, data) ∈ omap (λ '(path, data), pair path <$> data) b ↔
  Map_get b p = Some (Some data).
Proof.
  intros Hwf. rewrite list_elem_of_omap, Map_get_elem by done. split.
  - intros ([q [x|]] & Hin & Hq); simpl in Hq; [|done].
    by injection Hq as -> ->.
  - intros Hin. by exists (p, Some data).
Qed.

Lemma changed_removed_length (b : JsMap) :
  length (omap (λ '(path, data), pair path <$> data) b) +
  length (removed_of b) = length b.
Proof.
  unfold removed_of.
  induction b as [|[p v] l IH]; [done|].
  rewrite bind_cons, length_app. destruct v; simpl in *; unfold omap in *; lia.
Qed.

(** X3. On an open object [changedFilesToJSON()] splits the buffer in two:
    [changed] holds exactly the paths with a pending write, each with its
    staged content, [removed] exactly the paths pending deletion; no path
    is in both and the two lists together have one element per staged
    path.  Its [removed] is the [removed] of [getAddedRemovedFiles()], and
    every path [getAddedRemovedFiles()] calls added is among its changed
    paths.  The object and the disk are left as they were. *)
Theorem changedFilesToJSON_partition (w : World) :
  committed (this w) = false →
  Map_wf (buffer (this w)) →
  let b := buffer (this w) in
  ∃ changed removed,
    changedFilesToJSON w = (Ok (changed, removed), w) ∧
    (∀ path data, (path, data) ∈ changed ↔ Map_get b path = Some (Some data)) ∧
    (∀ path, path ∈ removed ↔ Map_get b path = Some None) ∧
    (∀ path, path ∈ changed.*1 → path ∉ removed) ∧
    length changed + length removed = Map_size b ∧
    ∃ added, getAddedRemovedFiles w = (Ok (added, removed), w) ∧
             added ⊆ changed.*1.
Proof.
  intros Hopen Hwf b.
  exists (omap (λ '(path, data), pair path <$> data) b), (removed_of b).
  split; [by apply changedFilesToJSON_spec|].
  split; [intros; by apply elem_of_changed|].
  split; [intros; by apply elem_of_removed_of|].
  split; [|split; [apply changed_removed_length|]].
  - intros path [[q data] [-> Hin]]%list_elem_of_fmap.
    apply elem_of_changed in Hin; [|done]. simpl.
    rewrite elem_of_removed_of by done. by rewrite Hin.
  - exists (new_paths_of (disk w) b).
    split; [by apply getAddedRemovedFiles_spec|].
    intros path [[data Hget] _]%elem_of_new_paths_of; [|done].
    apply list_elem_of_fmap. exists (path, data).
    split; [done|by apply elem_of_changed].
Qed.

Lemma changedFilesToJSON_partition_witness :
  let w := run [CallWriteFileSync "a.out" "X" "utf8"; CallUnlinkSync "c.out";
                CallWriteFileSync "c.out" "C" "utf8"; CallUnlinkSync "a.out";
                CallWriteFileSync "b.out" "" "utf8"] (fresh ∅) in
  ∃ changed removed,
    changedFilesToJSON w = (Ok (changed, removed), w) ∧
    (∀ path data, (path, data) ∈ changed ↔
       Map_get (buffer (this w)) path = Some (Some data)) ∧
    (∀ path, path ∈ removed ↔ Map_get (buffer (this w)) path = Some None) ∧
    (∀ path, path ∈ changed.*1 → path ∉ removed) ∧
    length changed + length removed = 3 ∧
    ∃ added, getAddedRemovedFiles w = (Ok (added, removed), w) ∧
             added ⊆ changed.*1.
Proof.
  pose (w := run [CallWriteFileSync "a.out" "X" "utf8"; CallUnlinkSync "c.out";
                  CallWriteFileSync "c.out" "C" "utf8"; CallUnlinkSync "a.out";
                  CallWriteFileSync "b.out" "" "utf8"] (fresh ∅)).
  assert (Hwf : Map_wf (buffer (this w))) by apply run_wf, fresh_wf.
  exact (changedFilesToJSON_partition w eq_refl Hwf).
Defined.

(** ** What [getAddedRemovedFiles] foretells of [commit] *)

Lemma new_paths_sublist_written d (b : JsMap) :
  new_paths_of d b `sublist_of` written_of d b.
Proof.
  unfold new_paths_of, written_of.
  induction b as [|[p v] l IH]; [done|].
  rewrite !bind_cons. apply sublist_app; [|done].
  destruct v as [data|]; simpl; [|done]. unfold differs.
  destruct (d !! p) as [n|] eqn:Hd.
  - rewrite bool_decide_eq_true_2 by eauto. apply sublist_nil_l.
  - rewrite bool_decide_eq_false_2 by (by intros [? ?]).
    by rewrite bool_decide_eq_true_2.
Qed.

(** X4. If [getAddedRemovedFiles()] is asked on an open object and
    [commit()] then runs on the same disk and its loop completes, the
    [removed] list passed to the hook is the one that was reported, and the
    reported [added] list is a sublist of the [added] list passed to the
    hook; the paths the hook gets in addition are exactly the staged writes
    that replace a file holding other content. *)
Theorem getAddedRemovedFiles_foretells_commit (w : World)
    (added0 removed0 removed added : list string) (w' : World) :
  committed (this w) = false →
  Map_wf (buffer (this w)) →
  (getAddedRemovedFiles w).1 = Ok (added0, removed0) →
  commit_loop (buffer (this w)) [] [] (mark_committed w) = (Ok (removed, added), w') →
  removed = removed0 ∧
  added0 `sublist_of` added ∧
  ∀ path, path ∈ added ∧ path ∉ added0 ↔
    ∃ data old, Map_get (buffer (this w)) path = Some (Some data) ∧
                disk w !! path = Some (File old) ∧ old ≠ data.
Proof.
  intros Hopen Hwf Hgar Hloop.
  rewrite getAddedRemovedFiles_spec in Hgar by done. simpl in Hgar.
  injection Hgar as <- <-.
  apply commit_loop_lists in Hloop as (Hff & -> & ->); [|done].
  split; [done|]. split; [apply new_paths_sublist_written|].
  intros path. rewrite elem_of_written_of, elem_of_new_paths_of by done.
  split.
  - intros [(data & Hget & Hne) Hnew].
    destruct (disk w !! path) as [[old|]|] eqn:Hd.
    + exists data, old. repeat split; [done|]. intros ->. by apply Hne.
    + exfalso.
      assert (Hok : entry_ok (disk w) path (Some data) = true).
      { apply (processed_get_ok _ (buffer (this w))).
        by rewrite (first_failure_None _ _ Hff). }
      unfold entry_ok in Hok. by rewrite Hd in Hok.
    + exfalso. apply Hnew. eauto.
  - intros (data & old & Hget & Hd & Hne). split.
    + exists data. split; [done|]. rewrite Hd. congruence.
    + intros [_ Hnone]. by rewrite Hd in Hnone.
Qed.

Lemma getAddedRemovedFiles_foretells_commit_witness :
  let w := run [CallWriteFileSync "a.out" "X" "utf8"; CallUnlinkSync "c.out";
                CallWriteFileSync "b.out" "NEW" "utf8"]
               (fresh {["c.out" := File "C"; "b.out" := File "OLD"]}) in
  ["c.out"] = ["c.out"] ∧ ["a.out"] `sublist_of` ["a.out"; "b.out"].
Proof.
  pose (w := run [CallWriteFileSync "a.out" "X" "utf8"; CallUnlinkSync "c.out";
                  CallWriteFileSync "b.out" "NEW" "utf8"]
                 (fresh {["c.out" := File "C"; "b.out" := File "OLD"]})).
  assert (Hwf : Map_wf (buffer (this w))) by apply run_wf, fresh_wf.
  destruct (getAddedRemovedFiles_foretells_commit w ["a.out"] ["c.out"]
              ["c.out"] ["a.out"; "b.out"]
              (commit_loop (buffer (this w)) [] [] (mark_committed w)).2
              eq_refl Hwf) as (H1 & H2 & _).
  - by vm_compute.
  - by vm_compute.
  - exact (conj H1 H2).
Defined.

(** ** [statSync] does not see what is staged *)

Lemma statSync_spec path w :
  committed (this w) = false → statSync path w = fs.statSync path w.
Proof.
  intros H. unfold statSync. by rewrite (bind_Ok _ _ _ _ _ (assert_open w H)).
Qed.

(** X5. [statSync] asks the real filesystem whatever is staged, so it can
    disagree with [existsSync] and [readFileSync]: after staging a write of
    a non-empty content to a path that is not on disk, [existsSync] returns
    [true] and [readFileSync] the content, yet [statSync] throws ENOENT;
    after staging the deletion of a file on disk, [existsSync] returns
    [false] and [readFileSync] throws, yet [statSync] returns the stat of
    the file. *)
Theorem statSync_ignores_staging (w : World) (path data enc : string) :
  committed (this w) = false →
  (data ≠ "" → disk w !! path = None →
   let w' := (writeFileSync path data enc w).2 in
   existsSync path w' = (Ok true, w') ∧
   readFileSync path enc w' = (Ok data, w') ∧
   statSync path w' = (Throw (FsError ENOENT path), w')) ∧
  (disk w !! path = Some (File data) →
   let w' := (unlinkSync path w).2 in
   existsSync path w' = (Ok false, w') ∧
   readFileSync path enc w' = (Throw (InvariantViolation read_deleted_msg), w') ∧
   statSync path w' = (Ok false, w')).
Proof.
  intros Hopen. split.
  - intros Hne Hd. rewrite writeFileSync_spec by done. simpl.
    rewrite existsSync_spec, readFileSync_spec, statSync_spec by done. simpl.
    rewrite Map_get_set_eq. simpl. rewrite bool_decide_eq_false_2 by done.
    repeat split. unfold fs.statSync. unfold_M. simpl. by rewrite Hd.
  - intros Hd. rewrite unlinkSync_spec by done. simpl.
    rewrite existsSync_spec, readFileSync_spec, statSync_spec by done. simpl.
    rewrite Map_get_set_eq. repeat split.
    unfold fs.statSync. unfold_M. simpl. by rewrite Hd.
Qed.

Lemma statSync_ignores_staging_witness :
  let w := fresh ∅ in
  let w' := (writeFileSync "a.out" "X" "utf8" w).2 in
  existsSync "a.out" w' = (Ok true, w') ∧
  readFileSync "a.out" "utf8" w' = (Ok "X", w') ∧
  statSync "a.out" w' = (Throw (FsError ENOENT "a.out"), w').
Proof.
  refine (proj1 (statSync_ignores_staging (fresh ∅) "a.out" "X" "utf8" eq_refl)
            _ eq_refl).
  discriminate.
Defined.

(** ** Guarding a read by [existsSync] *)

(** X6. On an open object, when [existsSync(path)] returns [true] a
    following [readFileSync(path)] returns a content, unless [path] is a
    directory of the real filesystem that is not staged; it never throws
    the read-deleted invariant nor ENOENT.  When [existsSync(path)] returns
    [false], [readFileSync(path)] throws, unless an empty content is
    staged for [path], which it returns. *)
Theorem existsSync_guards_readFileSync (w : World) (path enc : string) :
  committed (this w) = false →
  (existsSync path w = (Ok true, w) →
     (∃ data, readFileSync path enc w = (Ok data, w)) ∨
     (Map_get (buffer (this w)) path = None ∧ disk w !! path = Some Dir ∧
      readFileSync path enc w = (Throw (FsError EISDIR path), w))) ∧
  (existsSync path w = (Ok false, w) →
     (Map_get (buffer (this w)) path = Some (Some "") ∧
      readFileSync path enc w = (Ok "", w)) ∨
     (∃ e, readFileSync path enc w = (Throw e, w))).
Proof.
  intros Hopen. rewrite existsSync_spec, readFileSync_spec by done.
  unfold fs.existsSync, fs.readFileSync. unfold_M.
  destruct (Map_get (buffer (this w)) path) as [[data|]|] eqn:Hget; simpl.
  - split; [eauto|]. intros [= Hb]. left.
    apply negb_false_iff, bool_decide_eq_true in Hb. by subst.
  - split; [done|]. eauto.
  - destruct (disk w !! path) as [[data|]|] eqn:Hd; simpl.
    + split; [eauto|by intros [=]].
    + split; [by right|by intros [=]].
    + split; [by intros [=]|eauto].
Qed.

Lemma existsSync_guards_readFileSync_witness :
  let w := run [CallWriteFileSync "a.out" "X" "utf8"] (fresh ∅) in
  (∃ data, readFileSync "a.out" "utf8" w = (Ok data, w)) ∨
  (Map_get (buffer (this w)) "a.out" = None ∧ disk w !! "a.out" = Some Dir ∧
   readFileSync "a.out" "utf8" w = (Throw (FsError EISDIR "a.out"), w)).
Proof.
  exact (proj1 (existsSync_guards_readFileSync
    (run [CallWriteFileSync "a.out" "X" "utf8"] (fresh ∅)) "a.out" "utf8" eq_refl)
    eq_refl).
Defined.

(** ** Staging on other paths *)

Lemma last_staged_unconcerned path calls : ∀ init,
  forallb (λ c, negb (concerns path c)) calls = true →
  last_staged path calls init = init.
Proof.
  unfold last_staged.
  induction calls as [|c calls IH]; intros init Hc; [done|].
  simpl in Hc. apply andb_prop in Hc as [Hc Hcs]. simpl.
  rewrite IH by done. apply negb_true_iff in Hc.
  destruct c; simpl in *; try done;
    apply bool_decide_eq_false in Hc; by rewrite decide_False.
Qed.

(** X7. What the object answers about a path depends only on what was
    staged for that path and on the disk at that path: after any sequence
    of calls other than [commit()], none of which writes, unlinks or makes
    a directory at [path], [readFileSync(path)], [existsSync(path)] and
    [statSync(path)] return what they returned before the sequence. *)
Theorem staging_frame (calls : list Call) (w : World) (path enc : string) :
  forallb is_staging calls = true →
  forallb (λ c, negb (concerns path c)) calls = true →
  committed (this w) = false →
  (readFileSync path enc (run calls w)).1 = (readFileSync path enc w).1 ∧
  (existsSync path (run calls w)).1 = (existsSync path w).1 ∧
  (statSync path (run calls w)).1 = (statSync path w).1.
Proof.
  intros Hs Hun Hopen.
  assert (Hopen' : committed (this (run calls w)) = false)
    by by apply run_staging_open.
  assert (Hget : Map_get (buffer (this (run calls w))) path =
                 Map_get (buffer (this w)) path).
  { rewrite run_staging_get by done. by apply last_staged_unconcerned. }
  assert (Hd : disk (run calls w) !! path = disk w !! path).
  { destruct (run_staging_disk calls w path Hs Hopen)
      as [Heq|(_ & _ & Hin)]; [done|].
    rewrite forallb_forall in Hun. apply list_elem_of_In, Hun in Hin.
    simpl in Hin. by rewrite bool_decide_eq_true_2 in Hin. }
  rewrite !readFileSync_spec, !existsSync_spec, !statSync_spec by done.
  rewrite Hget. unfold fs.readFileSync, fs.existsSync, fs.statSync. unfold_M.
  rewrite Hd.
  repeat split.
  - destruct (Map_get (buffer (this w)) path) as [[?|]|]; try done.
    by destruct (disk w !! path) as [[?|]|].
  - by destruct (Map_get (buffer (this w)) path) as [[?|]|].
  - by destruct (disk w !! path) as [[?|]|].
Qed.

Lemma staging_frame_witness :
  let calls := [CallWriteFileSync "b.out" "B" "utf8"; CallUnlinkSync "c.out";
                CallMkdirSync "dir"] in
  let w := run [CallWriteFileSync "a.out" "X" "utf8"] (fresh ∅) in
  (readFileSync "a.out" "utf8" (run calls w)).1 = (readFileSync "a.out" "utf8" w).1 ∧
  (existsSync "a.out" (run calls w)).1 = (existsSync "a.out" w).1 ∧
  (statSync "a.out" (run calls w)).1 = (statSync "a.out" w).1.
Proof.
  exact (staging_frame
    [CallWriteFileSync "b.out" "B" "utf8"; CallUnlinkSync "c.out";
     CallMkdirSync "dir"]
    (run [CallWriteFileSync "a.out" "X" "utf8"] (fresh ∅)) "a.out" "utf8"
    eq_refl eq_refl eq_refl).
Defined.

(** ** [commit] makes the disk what the object showed *)

(** X8. When the loop of [commit()] completes, the real filesystem holds
    what the object answered while staging: a path for which
    [readFileSync] returned a content is a file with that content, a path
    staged as deleted (for which [readFileSync] threw the read-deleted
    invariant) is gone, and a path with nothing staged is as it was. *)
Theorem commit_realizes_view (sc : option SourceControl) (w : World)
    (removed added : list string) (w1 : World) (path enc : string) :
  committed (this w) = false →
  Map_wf (buffer (this w)) →
  commit_loop (buffer (this w)) [] [] (mark_committed w) = (Ok (removed, added), w1) →
  let w' := (commit sc w).2 in
  (∀ data, readFileSync path enc w = (Ok data, w) →
     (fs.readFileSync path enc w').1 = Ok data) ∧
  (readFileSync path enc w = (Throw (InvariantViolation read_deleted_msg), w) →
     (fs.existsSync path w').1 = Ok false) ∧
  (Map_get (buffer (this w)) path = None → disk w' !! path = disk w !! path).
Proof.
  intros Hopen Hwf Hloop w'.
  apply commit_loop_lists in Hloop as (Hff & _ & _); [|done].
  assert (Hd : disk w' !! path =
               match Map_get (buffer (this w)) path with
               | Some data => File <$> data
               | None => disk w !! path
               end).
  { unfold w'. rewrite commit_disk by done.
    rewrite (first_failure_None _ _ Hff). by apply disk_after_lookup. }
  rewrite readFileSync_spec by done.
  unfold fs.readFileSync, fs.existsSync. unfold_M. rewrite Hd.
  destruct (Map_get (buffer (this w)) path) as [[staged|]|]; simpl.
  - split; [|split]; [|done|done]. by intros data [= ->].
  - split; [|split]; done.
  - split; [|split]; [| |done].
    + intros data. by destruct (disk w !! path) as [[?|]|]; intros [= ->].
    + by destruct (disk w !! path) as [[?|]|].
Qed.

Lemma commit_realizes_view_witness :
  let w := run [CallWriteFileSync "a.out" "X" "utf8"; CallUnlinkSync "c.out"]
               (fresh {["c.out" := File "C"]}) in
  let w' := (commit None w).2 in
  readFileSync "a.out" "utf8" w = (Ok "X", w) ∧
  (fs.readFileSync "a.out" "utf8" w').1 = Ok "X".
Proof.
  pose (w := run [CallWriteFileSync "a.out" "X" "utf8"; CallUnlinkSync "c.out"]
                 (fresh {["c.out" := File "C"]})).
  assert (Hwf : Map_wf (buffer (this w))) by apply run_wf, fresh_wf.
  split; [reflexivity|].
  refine (proj1 (commit_realizes_view None w ["c.out"] ["a.out"]
    (commit_loop (buffer (this w)) [] [] (mark_committed w)).2
    "a.out" "utf8" eq_refl Hwf _) "X" eq_refl).
  by vm_compute.
Defined.

(** ** The lists of the hook are the effects performed *)

Lemma written_paths_events_of d (entries : JsMap) :
  written_paths (events_of d entries) = written_of d entries.
Proof.
  unfold written_paths, events_of, written_of.
  induction entries as [|[p v] l IH]; [done|].
  rewrite !bind_cons, omap_app, IH. f_equal.
  destruct v as [data|]; simpl; [|done]. by destruct (differs d p data).
Qed.

Lemma unlinked_paths_events_of d (entries : JsMap) :
  unlinked_paths (events_of d entries) = removed_of entries.
Proof.
  unfold unlinked_paths, events_of, removed_of.
  induction entries as [|[p v] l IH]; [done|].
  rewrite !bind_cons, omap_app, IH. f_equal.
  destruct v as [data|]; simpl; [|done]. by destruct (differs d p data).
Qed.

(** X9. When the loop of [commit()] completes, the [added] list it built
    (and passes to a hook) is the list of the paths it physically wrote, in
    the order of the writes, and the [removed] list is the list of the paths
    it physically unlinked, in the order of the deletions. *)
Theorem hook_lists_are_effects (sc : option SourceControl) (w : World)
    (removed added : list string) (w1 : World) :
  committed (this w) = false →
  Map_wf (buffer (this w)) →
  commit_loop (buffer (this w)) [] [] (mark_committed w) = (Ok (removed, added), w1) →
  written_paths (new_events (commit sc) w) = added ∧
  unlinked_paths (new_events (commit sc) w) = removed.
Proof.
  intros Hopen Hwf Hloop.
  apply commit_loop_lists in Hloop as (Hff & -> & ->); [|done].
  rewrite commit_new_events by done.
  rewrite (first_failure_None _ _ Hff).
  unfold written_paths, unlinked_paths. rewrite !omap_app.
  fold (written_paths (events_of (disk w) (buffer (this w)))).
  fold (unlinked_paths (events_of (disk w) (buffer (this w)))).
  rewrite written_paths_events_of, unlinked_paths_events_of.
  unfold hook_event. rewrite Hff.
  destruct sc; simpl; by rewrite !app_nil_r.
Qed.

Lemma hook_lists_are_effects_witness :
  let w := run [CallWriteFileSync "a.out" "X" "utf8"; CallUnlinkSync "c.out";
                CallWriteFileSync "b.out" "B" "utf8"]
               (fresh {["c.out" := File "C"; "b.out" := File "B"]}) in
  written_paths (new_events (commit (Some accepting_hook)) w) = ["a.out"] ∧
  unlinked_paths (new_events (commit (Some accepting_hook)) w) = ["c.out"].
Proof.
  pose (w := run [CallWriteFileSync "a.out" "X" "utf8"; CallUnlinkSync "c.out";
                  CallWriteFileSync "b.out" "B" "utf8"]
                 (fresh {["c.out" := File "C"; "b.out" := File "B"]})).
  assert (Hwf : Map_wf (buffer (this w))) by apply run_wf, fresh_wf.
  refine (hook_lists_are_effects (Some accepting_hook) w ["c.out"] ["a.out"]
    (commit_loop (buffer (this w)) [] [] (mark_committed w)).2 eq_refl Hwf _).
  by vm_compute.
Defined.

(** ** The hook runs last *)

(** X10. When the loop of [commit()] completes, a configured hook is invoked
    after all physical effects, once; the result of [commit()] is the
    outcome of the hook, and a rejecting hook undoes nothing: the disk and
    the physical effects are those of a commit without hook, and the
    object is committed. *)
Theorem hook_runs_last (h : SourceControl) (w : World)
    (removed added : list string) (w1 : World) :
  committed (this w) = false →
  Map_wf (buffer (this w)) →
  commit_loop (buffer (this w)) [] [] (mark_committed w) = (Ok (removed, added), w1) →
  new_events (commit (Some h)) w =
    new_events (commit None) w ++ [HookAddRemove added removed] ∧
  hook_calls (new_events (commit None) w) = [] ∧
  (commit (Some h) w).1 =
    (if addRemove_outcome h added removed then Ok () else Throw HookRejected) ∧
  disk (commit (Some h) w).2 = disk (commit None w).2 ∧
  committed (this (commit (Some h) w).2) = true.
Proof.
  intros Hopen Hwf Hloop.
  apply commit_loop_lists in Hloop as (Hff & -> & ->); [|done].
  rewrite !commit_new_events, !commit_disk by done.
  rewrite commit_spec by done. unfold hook_event. simpl. rewrite Hff. simpl.
  rewrite app_nil_r, hook_calls_events_of. by repeat split.
Qed.

Lemma hook_runs_last_witness :
  let h := {| addRemove_outcome := λ _ _, false |} in
  let w := run [CallWriteFileSync "a.out" "X" "utf8"] (fresh ∅) in
  (commit (Some h) w).1 = Throw HookRejected ∧
  disk (commit (Some h) w).2 = disk (commit None w).2.
Proof.
  pose (h := {| addRemove_outcome := λ _ _, false |}).
  pose (w := run [CallWriteFileSync "a.out" "X" "utf8"] (fresh ∅)).
  assert (Hwf : Map_wf (buffer (this w))) by apply run_wf, fresh_wf.
  destruct (hook_runs_last h w [] ["a.out"]
              (commit_loop (buffer (this w)) [] [] (mark_committed w)).2
              eq_refl Hwf) as (_ & _ & Hres & Hdisk & _).
  - by vm_compute.
  - exact (conj Hres Hdisk).
Defined.

(** ** A commit that throws is not rolled back *)

Lemma first_failure_split d (b : JsMap) path :
  first_failure d b = Some path →
  ∃ v post, b = processed d b ++ (path, v) :: post ∧ entry_ok d path v = false.
Proof.
  induction b as [|[p v] l IH]; simpl; [done|].
  destruct (entry_ok d p v) eqn:Hok.
  - intros Hff. destruct (IH Hff) as (v' & post & Hl & Hfail).
    exists v', post. split; [|done]. simpl. by rewrite <- Hl.
  - intros [= ->]. by exists v, l.
Qed.

(** X11. When a call of [fs] throws in the loop of [commit()], at the entry
    for [path], [commit()] rejects with that error and nothing is rolled
    back: the entries staged before [path] have been applied and stay
    applied (their events are all the events of the commit), every other
    path is on disk as it was, and the object is committed, so the staged
    entries from [path] on can no longer be applied through it. *)
Theorem failed_commit_partial (sc : option SourceControl) (w : World)
    (e : Error) (w1 : World) :
  committed (this w) = false →
  Map_wf (buffer (this w)) →
  commit_loop (buffer (this w)) [] [] (mark_committed w) = (Throw e, w1) →
  let w' := (commit sc w).2 in
  ∃ pre path v post,
    buffer (this w) = pre ++ (path, v) :: post ∧
    e = entry_error (disk w) path ∧
    (commit sc w).1 = Throw e ∧
    (∀ p v', (p, v') ∈ pre → disk w' !! p = File <$> v') ∧
    (∀ q, q ∉ pre.*1 → disk w' !! q = disk w !! q) ∧
    new_events (commit sc) w = events_of (disk w) pre ∧
    ∀ sc', commit sc' w' = (Throw (InvariantViolation no_ops_msg), w').
Proof.
  intros Hopen Hwf Hloop w'.
  rewrite commit_loop_spec in Hloop by done. simpl in Hloop.
  destruct (first_failure (disk w) (buffer (this w))) as [path|] eqn:Hff; [|done].
  injection Hloop as <- _.
  destruct (first_failure_split _ _ _ Hff) as (v & post & Hb & Hfail).
  set (pre := processed (disk w) (buffer (this w))) in *.
  assert (Hwfpre : Map_wf pre) by by apply processed_wf.
  assert (Hd : ∀ q, disk w' !! q =
                 match Map_get pre q with
                 | Some data => File <$> data
                 | None => disk w !! q
                 end).
  { intros q. unfold w'. rewrite commit_disk by done. by apply disk_after_lookup. }
  exists pre, path, v, post. split; [done|]. split; [done|].
  split; [|split; [|split; [|split]]].
  - rewrite commit_spec by done. simpl. by rewrite Hff.
  - intros p v' Hin. rewrite Hd.
    apply Map_get_elem in Hin; [|done]. by rewrite Hin.
  - intros q Hq. rewrite Hd. apply Map_get_None in Hq. by rewrite Hq.
  - rewrite commit_new_events by done. unfold hook_event. rewrite Hff.
    by rewrite app_nil_r.
  - intros sc'. apply commit_committed, commit_marks.
Qed.

Lemma failed_commit_partial_witness :
  let w := run [CallWriteFileSync "a.out" "X" "utf8"; CallUnlinkSync "gone.out";
                CallWriteFileSync "b.out" "B" "utf8"] (fresh ∅) in
  let w' := (commit None w).2 in
  ∃ pre path v post,
    buffer (this w) = pre ++ (path, v) :: post ∧
    FsError ENOENT "gone.out" = entry_error (disk w) path ∧
    (commit None w).1 = Throw (FsError ENOENT "gone.out") ∧
    (∀ p v', (p, v') ∈ pre → disk w' !! p = File <$> v') ∧
    (∀ q, q ∉ pre.*1 → disk w' !! q = disk w !! q) ∧
    new_events (commit None) w = events_of (disk w) pre ∧
    ∀ sc', commit sc' w' = (Throw (InvariantViolation no_ops_msg), w').
Proof.
  pose (w := run [CallWriteFileSync "a.out" "X" "utf8"; CallUnlinkSync "gone.out";
                  CallWriteFileSync "b.out" "B" "utf8"] (fresh ∅)).
  assert (Hwf : Map_wf (buffer (this w))) by apply run_wf, fresh_wf.
  refine (failed_commit_partial None w (FsError ENOENT "gone.out")
    (commit_loop (buffer (this w)) [] [] (mark_committed w)).2 eq_refl Hwf _).
  by vm_compute.
Defined.

(** ** Committing the same writes again *)

Lemma settled_entries d (entries : JsMap) :
  (∀ p v, (p, v) ∈ entries → ∃ data, v = Some data ∧ d !! p = Some (File data)) →
  first_failure d entries = None ∧
  events_of d entries = [] ∧
  written_of d entries = [] ∧
  removed_of entries = [] ∧
  disk_after d entries = d.
Proof.
  unfold events_of, written_of, removed_of, disk_after.
  induction entries as [|[p v] l IH]; intros Hall; [done|].
  destruct (Hall p v) as (data & -> & Hd); [left|].
  destruct IH as (IH1 & IH2 & IH3 & IH4 & IH5).
  { intros q v' Hin. apply Hall. by right. }
  rewrite !bind_cons, IH2, IH3, IH4. simpl.
  unfold entry_ok, differs. rewrite Hd.
  rewrite bool_decide_eq_false_2 by (intros Hne; by apply Hne).
  by rewrite insert_id.
Qed.

Lemma no_deletion_staged (b : JsMap) p v :
  removed_of b = [] → (p, v) ∈ b → is_Some v.
Proof.
  intros Hrm Hin. destruct v as [data|]; [eauto|].
  assert (p ∈ removed_of b) as Hp.
  { unfold removed_of. apply list_elem_of_bind. exists (p, None).
    split; [|done]. simpl. by left. }
  rewrite Hrm in Hp. by apply elem_of_nil in Hp.
Qed.

(** X12. After a [commit()] of staged writes only (no deletion) whose loop
    completed, a new object given the same staged writes over the disk
    that commit left commits without any physical effect: nothing is
    written, the disk is unchanged, the lists it builds are empty, and a
    configured hook is still invoked, once, with two empty lists. *)
Theorem recommit_writes_noop (sc sc' : option SourceControl) (w : World)
    (removed added : list string) (w1 : World) :
  committed (this w) = false →
  Map_wf (buffer (this w)) →
  removed_of (buffer (this w)) = [] →
  commit_loop (buffer (this w)) [] [] (mark_committed w) = (Ok (removed, added), w1) →
  let w2 := restaged (buffer (this w)) (commit sc w).2 in
  (commit_loop (buffer (this w2)) [] [] (mark_committed w2)).1 = Ok ([], []) ∧
  fs_events (new_events (commit sc') w2) = [] ∧
  disk (commit sc' w2).2 = disk w2 ∧
  hook_calls (new_events (commit sc') w2) =
    match sc' with Some _ => [([], [])] | None => [] end.
Proof.
  intros Hopen Hwf Hnodel Hloop w2.
  apply commit_loop_lists in Hloop as (Hff & _ & _); [|done].
  set (b := buffer (this w)) in *.
  assert (Hsettled : ∀ p v, (p, v) ∈ b →
            ∃ data, v = Some data ∧ disk w2 !! p = Some (File data)).
  { intros p v Hin. destruct (no_deletion_staged b p v Hnodel Hin) as [data ->].
    exists data. split; [done|]. unfold w2, restaged. simpl.
    rewrite commit_disk by done. fold b.
    rewrite (first_failure_None _ _ Hff), disk_after_lookup by done.
    apply Map_get_elem in Hin; [|done]. by rewrite Hin. }
  destruct (settled_entries (disk w2) b Hsettled) as (S1 & S2 & S3 & S4 & S5).
  assert (Hopen2 : committed (this w2) = false) by done.
  assert (Hwf2 : Map_wf (buffer (this w2))) by done.
  assert (Hb2 : buffer (this w2) = b) by done.
  rewrite commit_loop_spec by done.
  rewrite commit_hook_calls, commit_new_events, commit_disk by done.
  rewrite Hb2. unfold hook_event.
  change (disk (mark_committed w2)) with (disk w2).
  rewrite S1, (first_failure_None _ _ S1), S2, S3, S4, S5. simpl.
  repeat split; by destruct sc'.
Qed.

Lemma recommit_writes_noop_witness :
  let w := run [CallWriteFileSync "a.out" "X" "utf8";
                CallWriteFileSync "b.out" "B" "utf8"]
               (fresh {["b.out" := File "OLD"]}) in
  let w2 := restaged (buffer (this w)) (commit None w).2 in
  (commit_loop (buffer (this w2)) [] [] (mark_committed w2)).1 = Ok ([], []) ∧
  fs_events (new_events (commit (Some accepting_hook)) w2) = [] ∧
  disk (commit (Some accepting_hook) w2).2 = disk w2 ∧
  hook_calls (new_events (commit (Some accepting_hook)) w2) = [([], [])].
Proof.
  pose (w := run [CallWriteFileSync "a.out" "X" "utf8";
                  CallWriteFileSync "b.out" "B" "utf8"]
                 (fresh {["b.out" := File "OLD"]})).
  assert (Hwf : Map_wf (buffer (this w))) by apply run_wf, fresh_wf.
  refine (recommit_writes_noop None (Some accepting_hook) w [] ["a.out"; "b.out"]
    (commit_loop (buffer (this w)) [] [] (mark_committed w)).2
    eq_refl Hwf eq_refl _).
  by vm_compute.
Defined.

(** ** The order of staging does not change what a commit leaves *)

Lemma first_failure_None_iff d (b : JsMap) :
  first_failure d b = None ↔ ∀ p v, (p, v) ∈ b → entry_ok d p v = true.
Proof.
  induction b as [|[p v] l IH]; simpl.
  - split; [|done]. by intros _ p v ?%elem_of_nil.
  - destruct (entry_ok d p v) eqn:Hok.
    + rewrite IH. split.
      * intros Hl q v' [[= -> ->]|Hin]%elem_of_cons; auto.
      * intros Hall q v' Hin. apply Hall. by right.
    + split; [done|]. intros Hall. rewrite Hall in Hok; [done|by left].
Qed.

Lemma Map_wf_Permutation (b1 b2 : JsMap) : b1 ≡ₚ b2 → Map_wf b1 → Map_wf b2.
Proof. unfold Map_wf, Map_keys. by intros ->. Qed.

Lemma Map_get_Permutation (b1 b2 : JsMap) p :
  Map_wf b1 → b1 ≡ₚ b2 → Map_get b1 p = Map_get b2 p.
Proof.
  intros Hwf1 Hperm.
  assert (Hwf2 : Map_wf b2) by by eapply Map_wf_Permutation.
  destruct (Map_get b1 p) as [v|] eqn:H1.
  - symmetry. apply Map_get_elem; [done|]. rewrite <- Hperm.
    by apply Map_get_elem.
  - symmetry. apply Map_get_None. apply Map_get_None in H1.
    unfold Map_keys in *. by rewrite <- Hperm.
Qed.

(** X13. Two objects over the same disk whose buffers hold the same staged
    operation for every path, staged in different orders: if the loop of
    [commit()] completes for the first it completes for the second, the
    two commits leave the same disk, and the [added] and [removed] lists
    they build are the same up to order. *)
Theorem commit_order_independent (sc1 sc2 : option SourceControl) (w1 w2 : World)
    (removed1 added1 : list string) (w1' : World) :
  committed (this w1) = false →
  committed (this w2) = false →
  Map_wf (buffer (this w1)) →
  buffer (this w1) ≡ₚ buffer (this w2) →
  disk w1 = disk w2 →
  commit_loop (buffer (this w1)) [] [] (mark_committed w1) =
    (Ok (removed1, added1), w1') →
  ∃ removed2 added2,
    (commit_loop (buffer (this w2)) [] [] (mark_committed w2)).1 =
      Ok (removed2, added2) ∧
    removed1 ≡ₚ removed2 ∧
    added1 ≡ₚ added2 ∧
    disk (commit sc1 w1).2 = disk (commit sc2 w2).2.
Proof.
  intros Hopen1 Hopen2 Hwf1 Hperm Hd Hloop.
  assert (Hwf2 : Map_wf (buffer (this w2))) by by eapply Map_wf_Permutation.
  apply commit_loop_lists in Hloop as (Hff1 & -> & ->); [|done].
  assert (Hff2 : first_failure (disk w2) (buffer (this w2)) = None).
  { apply first_failure_None_iff. intros p v Hin. rewrite <- Hd.
    rewrite first_failure_None_iff in Hff1. apply Hff1. by rewrite Hperm. }
  exists (removed_of (buffer (this w2))),
         (written_of (disk w2) (buffer (this w2))).
  split; [|split; [|split]].
  - rewrite commit_loop_spec by done. simpl. by rewrite Hff2.
  - unfold removed_of. by rewrite Hperm.
  - unfold written_of. by rewrite Hperm, Hd.
  - rewrite !commit_disk by done.
    rewrite (first_failure_None _ _ Hff1), (first_failure_None _ _ Hff2).
    apply map_eq. intros p. rewrite !disk_after_lookup by done.
    by rewrite (Map_get_Permutation _ _ p Hwf1 Hperm), Hd.
Qed.

Lemma commit_order_independent_witness :
  let d : Disk := {["c.out" := File "C"]} in
  let w1 := run [CallWriteFileSync "a.out" "X" "utf8"; CallUnlinkSync "c.out"]
                (fresh d) in
  let w2 := run [CallUnlinkSync "c.out"; CallWriteFileSync "a.out" "X" "utf8"]
                (fresh d) in
  ∃ removed2 added2,
    (commit_loop (buffer (this w2)) [] [] (mark_committed w2)).1 =
      Ok (removed2, added2) ∧
    ["c.out"] ≡ₚ removed2 ∧
    ["a.out"] ≡ₚ added2 ∧
    disk (commit None w1).2 = disk (commit None w2).2.
Proof.
  pose (d := ({["c.out" := File "C"]} : Disk)).
  pose (w1 := run [CallWriteFileSync "a.out" "X" "utf8"; CallUnlinkSync "c.out"]
                  (fresh d)).
  pose (w2 := run [CallUnlinkSync "c.out"; CallWriteFileSync "a.out" "X" "utf8"]
                  (fresh d)).
  assert (Hwf : Map_wf (buffer (this w1))) by apply run_wf, fresh_wf.
  refine (commit_order_independent None None w1 w2 ["c.out"] ["a.out"]
    (commit_loop (buffer (this w1)) [] [] (mark_committed w1)).2
    eq_refl eq_refl Hwf _ eq_refl _).
  - apply Permutation_swap.
  - by vm_compute.
Defined.

(** ** Guarding [mkdirSync] by [existsSync] *)

Lemma mkdirSync_spec path w :
  committed (this w) = false → mkdirSync path w = fs.mkdirSync path w.
Proof.
  intros H. unfold mkdirSync. by rewrite (bind_Ok _ _ _ _ _ (assert_open w H)).
Qed.

(** X14. [mkdirSync] is passed to [fs] whatever is staged.  On an open
    object, whenever something exists at [path] on the real filesystem
    [mkdirSync(path)] throws EEXIST and changes nothing: so it does when
    [existsSync(path)] returns [true] for a path with nothing staged, and
    also when a deletion is staged for a file on disk and [existsSync]
    returns [false].  Whenever [mkdirSync(path)] returns, nothing existed
    at [path], the directory is on the real filesystem at once and the
    buffer is as it was: [statSync(path)] reports a directory,
    [existsSync(path)] returns [true] if nothing is staged for [path], and
    a second [mkdirSync(path)] throws EEXIST. *)
Theorem mkdirSync_passes_through (w : World) (path : string) :
  committed (this w) = false →
  (∀ n, disk w !! path = Some n →
     mkdirSync path w = (Throw (FsError EEXIST path), w)) ∧
  (Map_get (buffer (this w)) path = None →
   existsSync path w = (Ok true, w) →
     mkdirSync path w = (Throw (FsError EEXIST path), w)) ∧
  (∀ data, disk w !! path = Some (File data) →
     let w' := (unlinkSync path w).2 in
     existsSync path w' = (Ok false, w') ∧
     mkdirSync path w' = (Throw (FsError EEXIST path), w')) ∧
  ((mkdirSync path w).1 = Ok () →
     let w' := (mkdirSync path w).2 in
     disk w !! path = None ∧
     disk w' = <[path := Dir]> (disk w) ∧
     this w' = this w ∧
     statSync path w' = (Ok true, w') ∧
     mkdirSync path w' = (Throw (FsError EEXIST path), w') ∧
     (Map_get (buffer (this w)) path = None →
        existsSync path w' = (Ok true, w'))).
Proof.
  intros Hopen.
  assert (Hexists : ∀ w0 n, committed (this w0) = false →
            disk w0 !! path = Some n →
            mkdirSync path w0 = (Throw (FsError EEXIST path), w0)).
  { intros w0 n H0 Hd. rewrite mkdirSync_spec by done.
    unfold fs.mkdirSync. unfold_M. by rewrite Hd. }
  split; [intros n; by apply Hexists|]. split; [|split].
  - intros Hget. rewrite existsSync_spec by done. rewrite Hget.
    unfold fs.existsSync. unfold_M.
    destruct (disk w !! path) as [n|] eqn:Hd; simpl.
    + intros _. by apply (Hexists w n).
    + by intros [=].
  - intros data Hd. rewrite unlinkSync_spec by done. simpl.
    rewrite existsSync_spec by done. simpl. rewrite Map_get_set_eq.
    split; [done|]. by apply (Hexists _ (File data)).
  - rewrite mkdirSync_spec by done. unfold fs.mkdirSync. unfold_M.
    destruct (disk w !! path) as [n|] eqn:Hd; simpl; [by intros [=]|].
    intros _. split; [done|]. split; [done|]. split; [done|].
    rewrite statSync_spec, mkdirSync_spec, existsSync_spec by done. simpl.
    unfold fs.statSync, fs.mkdirSync, fs.existsSync. unfold_M. simpl.
    rewrite lookup_insert_eq. split; [done|]. split; [done|].
    by intros ->.
Qed.

Lemma mkdirSync_passes_through_witness :
  let w := fresh ∅ in
  let w' := (mkdirSync "out" w).2 in
  disk w !! "out" = None ∧
  disk w' = <["out" := Dir]> (disk w) ∧
  this w' = this w ∧
  statSync "out" w' = (Ok true, w') ∧
  mkdirSync "out" w' = (Throw (FsError EEXIST "out"), w') ∧
  existsSync "out" w' = (Ok true, w').
Proof.
  assert (Hok : (mkdirSync "out" (fresh ∅)).1 = Ok ()) by reflexivity.
  destruct (proj2 (proj2 (proj2
    (mkdirSync_passes_through (fresh ∅) "out" eq_refl))) Hok)
    as (H1 & H2 & H3 & H4 & H5 & H6).
  exact (conj H1 (conj H2 (conj H3 (conj H4 (conj H5 (H6 eq_refl)))))).
Defined.
